(** * raiqub/data: the in-memory expiring key:value store

    A shallow embedding of [memstore.Store] (src/memstore/store.go), of the
    entry type [MemData] it stores and of the [setValue] helper, followed by
    the properties of the store that its description states.

    Conventions of the embedding:
    - a [time.Time] is an integer number of nanoseconds on an unbounded time
      line and a [time.Duration] an integer number of nanoseconds; Go's
      integer division of a duration truncates towards zero ([Z.quot]);
    - every method of the store is run at one instant [now]: all the
      [time.Now()] readings inside one call return the same value;
    - the map holds pointers to [MemData]; every entry is created by [Add]
      with a fresh struct, so entries are never aliased and the map is a
      finite map from keys to entry records, which are updated in place;
    - [sync.RWMutex] is seen from the calling goroutine: the mode in which
      it holds the mutex.  A ghost field of the state records every lock
      operation and every access to the map with the mode held at that
      moment, so that the lock discipline can be stated. *)

From stdpp Require Import base gmap strings list fin_maps pretty.

Open Scope Z_scope.

(** ** Time *)

Definition Time := Z.
Definition Duration := Z.

(** [t.After(u)] *)
Definition After (t u : Time) : bool := u <? t.

(** [t.Add(d)] *)
Definition TimeAdd (t : Time) (d : Duration) : Time := t + d.

(** ** Dynamic values

    What an [interface{}] can hold, as far as [setValue] can tell values
    apart: the dynamic type, the payload, and for pointers the pointed
    variable. *)

Inductive GoType :=
  | TInt
  | TString
  | TBool
  | TEmptyInterface
  | TPtr (elem : GoType).

#[global] Instance GoType_eq_dec : EqDecision GoType.
Proof. solve_decision. Defined.

Definition loc := Z.

Inductive GoValue :=
  | VInt (n : Z)
  | VString (s : string)
  | VBool (b : bool)
  | VPtr (elem : GoType) (target : option loc).

(** [nil] is [None]. *)
Definition iface := option GoValue.

(** The variables of the caller that destinations point to. *)
Definition Memory := gmap loc iface.

(** [reflect.TypeOf] on a non-nil interface value. *)
Definition TypeOf (v : GoValue) : GoType :=
  match v with
  | VInt _ => TInt
  | VString _ => TString
  | VBool _ => TBool
  | VPtr elem _ => TPtr elem
  end.

(** Whether [reflect.Value.Set] accepts a value of type [src] for a variable
    of type [dst]: identical types, or any type into [interface{}]. *)
Definition AssignableTo (src dst : GoType) : bool :=
  bool_decide (src = dst) || bool_decide (dst = TEmptyInterface).

(** ** Errors *)

Inductive error :=
  | DuplicatedKeyError (key : string)
  | InvalidKeyError (key : string)
  | NotSupportedError (what : string)
  | IndereferenceError (type : option GoType).

(** What a call does: it returns its [error] result ([None] is [nil]), or it
    panics. *)
Inductive outcome :=
  | Return (err : option error)
  | Panic.

(** [dot.LockStatus] *)
Inductive LockStatus :=
  | Unlocked
  | ReadLocked
  | WriteLocked.

#[global] Instance LockStatus_eq_dec : EqDecision LockStatus.
Proof. solve_decision. Defined.

(** [data.LifetimeScope] is an [int]. *)
Definition LifetimeScope := Z.
Definition ScopeAll : LifetimeScope := 0.
Definition ScopeNewAndUpdated : LifetimeScope := 1.
Definition ScopeNew : LifetimeScope := 2.

(** [strconv.Itoa] *)
Definition Itoa (n : Z) : string := pretty n.

(** ** MemData: a value with its expiration bookkeeping *)

Module MemData.

Record t := mk {
  expireAt : Time;
  lifetime : Duration;
  value : iface
}.

Definition NewMemData (now : Time) (lifetime : Duration) (value : iface) : t :=
  {| expireAt := TimeAdd now lifetime; lifetime := lifetime; value := value |}.

Definition Delete (i : t) : t :=
  {| expireAt := expireAt i; lifetime := lifetime i; value := None |}.

Definition IsExpired (now : Time) (i : t) : bool :=
  After now (expireAt i).

Definition Hit (now : Time) (i : t) : t :=
  {| expireAt := TimeAdd now (lifetime i); lifetime := lifetime i;
     value := value i |}.

Definition Value (i : t) : iface := value i.

Definition SetLifetime (d : Duration) (i : t) : t :=
  {| expireAt := expireAt i; lifetime := d; value := value i |}.

Definition SetValue (v : iface) (i : t) : t :=
  {| expireAt := expireAt i; lifetime := lifetime i; value := v |}.

End MemData.

(** ** setValue *)

Definition setValue (src dst : iface) (mem : Memory) : outcome * Memory :=
  match src with
  | None => (Return None, mem)
  | Some srcVal =>
      match dst with
      | Some (VPtr elem (Some l)) =>
          if AssignableTo (TypeOf srcVal) elem
          then (Return None, <[l := Some srcVal]> mem)
          else (Panic, mem)
      | _ => (Return (Some (IndereferenceError (TypeOf <$> dst))), mem)
      end
  end.

(** ** The store *)

Module memstore.

(** An operation on the mutex or an access to the map, with the mode in
    which the caller held the mutex when it happened. *)
Inductive Event :=
  | EvRLock (held : LockStatus)
  | EvRUnlock (held : LockStatus)
  | EvLock (held : LockStatus)
  | EvUnlock (held : LockStatus)
  | EvRead (held : LockStatus)
  | EvWrite (held : LockStatus).

(** The fields of the Go struct, and the ghost [events]. *)
Record Store := mkStore {
  values : gmap string MemData.t;
  lifetime : Duration;
  isTransient : bool;
  mutex : LockStatus;
  lastgc : Time;
  events : list Event
}.

(** [New]; the zero [time.Time] is instant [zero]. *)
Definition New (zero : Time) (d : Duration) (isTransient : bool) : Store :=
  {| values := ∅; lifetime := d; isTransient := isTransient;
     mutex := Unlocked; lastgc := zero; events := [] |}.

(** *** The state monad of the methods *)

Definition M (A : Type) : Type := Store → A * Store.

Definition ret {A} (a : A) : M A := λ s, (a, s).

Definition bind {A B} (m : M A) (k : A → M B) : M B :=
  λ s, let (a, s') := m s in k a s'.

Notation "'let*' x ':=' m 'in' k" := (bind m (λ x, k))
  (at level 10, x name, m at level 100, k at level 200).
Notation "m >> k" := (bind m (λ _, k))
  (at level 80, right associativity).

Definition log (e : LockStatus → Event) : M unit :=
  λ s, (tt, {| values := values s; lifetime := lifetime s;
               isTransient := isTransient s; mutex := mutex s;
               lastgc := lastgc s; events := events s ++ [e (mutex s)] |}).

Definition setMutex (m : LockStatus) : M unit :=
  λ s, (tt, {| values := values s; lifetime := lifetime s;
               isTransient := isTransient s; mutex := m;
               lastgc := lastgc s; events := events s |}).

Definition setValues (vs : gmap string MemData.t) : M unit :=
  λ s, (tt, {| values := vs; lifetime := lifetime s;
               isTransient := isTransient s; mutex := mutex s;
               lastgc := lastgc s; events := events s |}).

Definition setLifetime (d : Duration) : M unit :=
  λ s, (tt, {| values := values s; lifetime := d;
               isTransient := isTransient s; mutex := mutex s;
               lastgc := lastgc s; events := events s |}).

Definition setIsTransient (b : bool) : M unit :=
  λ s, (tt, {| values := values s; lifetime := lifetime s;
               isTransient := b; mutex := mutex s;
               lastgc := lastgc s; events := events s |}).

Definition setLastgc (t : Time) : M unit :=
  λ s, (tt, {| values := values s; lifetime := lifetime s;
               isTransient := isTransient s; mutex := mutex s;
               lastgc := t; events := events s |}).

Definition get {A} (f : Store → A) : M A := λ s, (f s, s).

(** [s.mutex.RLock()], [RUnlock()], [Lock()], [Unlock()] *)
Definition RLock : M unit := log EvRLock >> setMutex ReadLocked.
Definition RUnlock : M unit := log EvRUnlock >> setMutex Unlocked.
Definition Lock : M unit := log EvLock >> setMutex WriteLocked.
Definition Unlock : M unit := log EvUnlock >> setMutex Unlocked.

(** [s.values[key]] and [len(s.values)] read the map;
    [s.values[key] = d], [delete(s.values, key)] and
    [s.values = make(...)] write it. *)
Definition lookupValue (key : string) : M (option MemData.t) :=
  log EvRead >> get (λ s, values s !! key).

Definition lenValues : M Z :=
  log EvRead >> get (λ s, Z.of_nat (size (values s))).

Definition rangeKeys : M (list string) :=
  log EvRead >> get (λ s, (map_to_list (values s)).*1).

Definition storeValue (key : string) (d : MemData.t) : M unit :=
  log EvWrite >> let* vs := get values in setValues (<[key := d]> vs).

Definition deleteValue (key : string) : M unit :=
  log EvWrite >> let* vs := get values in setValues (delete key vs).

Definition makeValues : M unit :=
  log EvWrite >> setValues ∅.

(** A method called on the [Data] found under [key] changes the struct the
    map points to; the map itself is not written. *)
Definition poke (key : string) (d : MemData.t) : M unit :=
  let* vs := get values in setValues (<[key := d]> vs).

(** *** gc *)

(** The body of [for i := range s.values] in [gc], over the keys the range
    produces. *)
Fixpoint gc_range (now : Time) (keys : list string) (writeLocked : bool)
  : M bool :=
  match keys with
  | [] => ret writeLocked
  | i :: keys' =>
      let* v := lookupValue i in
      match v with
      | Some d =>
          if MemData.IsExpired now d then
            (if writeLocked then ret tt else RUnlock >> Lock) >>
            deleteValue i >>
            gc_range now keys' true
          else gc_range now keys' writeLocked
      | None => gc_range now keys' writeLocked
      end
  end.

Definition gc (now : Time) : M LockStatus :=
  let* lt := get lifetime in
  let minInterval := lt `quot` 5 in
  let* last := get lastgc in
  if After (TimeAdd last minInterval) now then ret Unlocked
  else
    setLastgc now >>
    RLock >>
    let* keys := rangeKeys in
    let* writeLocked := gc_range now keys false in
    if writeLocked then ret WriteLocked else ret ReadLocked.

(** *** unsafeGet *)

Definition unsafeGet (key : string) : M (MemData.t + error) :=
  let* v := lookupValue key in
  match v with
  | None => ret (inr (InvalidKeyError key))
  | Some d => ret (inl d)
  end.

(** *** The methods of the Store interface *)

Definition Add (now : Time) (key : string) (value : iface)
  : M (option error) :=
  let* st := gc now in
  match st with
  | ReadLocked => RUnlock >> Lock
  | Unlocked => Lock
  | WriteLocked => ret tt
  end >>
  let* lt := get lifetime in
  let data := MemData.NewMemData now lt value in
  let* found := lookupValue key in
  match found with
  | Some _ => Unlock >> ret (Some (DuplicatedKeyError key))
  | None => storeValue key data >> Unlock >> ret None
  end.

Definition Count (now : Time) : M (Z * option error) :=
  let* st := gc now in
  match st with
  | WriteLocked => Unlock
  | ReadLocked => RUnlock
  | Unlocked => ret tt
  end >>
  let* n := lenValues in
  ret (n, None).

Definition Delete (now : Time) (key : string) : M (option error) :=
  let* lckStatus := gc now in
  let* r := unsafeGet key in
  match r with
  | inr err =>
      match lckStatus with
      | WriteLocked => Unlock
      | ReadLocked => RUnlock
      | Unlocked => ret tt
      end >>
      ret (Some err)
  | inl _ =>
      match lckStatus with
      | ReadLocked => RUnlock >> Lock
      | Unlocked => Lock
      | WriteLocked => ret tt
      end >>
      deleteValue key >>
      Unlock >>
      ret None
  end.

Definition Flush : M (option error) :=
  Lock >> makeValues >> Unlock >> ret None.

Definition Get (now : Time) (key : string) (ref : iface) (mem : Memory)
  : M (outcome * Memory) :=
  let* st := gc now in
  match st with
  | WriteLocked => Unlock >> RLock
  | Unlocked => RLock
  | ReadLocked => ret tt
  end >>
  let* r := unsafeGet key in
  match r with
  | inr err => RUnlock >> ret (Return (Some err), mem)
  | inl v =>
      let* transient := get isTransient in
      let* lt := get lifetime in
      let v :=
        if negb transient
        then MemData.Hit now (MemData.SetLifetime lt v)
        else v in
      poke key v >>
      let res := setValue (MemData.Value v) ref mem in
      RUnlock >> ret res
  end.

Definition GC (now : Time) : M unit :=
  let* st := gc now in
  match st with
  | ReadLocked => RUnlock
  | WriteLocked => Unlock
  | Unlocked => ret tt
  end.

(** [Set]; the name is a keyword of Rocq. *)
Definition Set_ (now : Time) (key : string) (value : iface)
  : M (option error) :=
  let* st := gc now in
  match st with
  | WriteLocked => Unlock >> RLock
  | Unlocked => RLock
  | ReadLocked => ret tt
  end >>
  let* r := unsafeGet key in
  match r with
  | inr err => RUnlock >> ret (Some err)
  | inl v =>
      let v := MemData.SetValue value v in
      let* transient := get isTransient in
      let* lt := get lifetime in
      let v :=
        if negb transient
        then MemData.Hit now (MemData.SetLifetime lt v)
        else v in
      poke key v >>
      RUnlock >> ret None
  end.

Definition SetLifetime (now : Time) (d : Duration) (scope : LifetimeScope)
  : M (option error) :=
  if decide (scope = ScopeAll) then
    let* st := gc now in
    match st with
    | WriteLocked => Unlock >> RLock
    | Unlocked => RLock
    | ReadLocked => ret tt
    end >>
    log EvRead >>
    let* vs := get values in
    setValues (MemData.SetLifetime d <$> vs) >>
    setLifetime d >>
    RUnlock >> ret None
  else if decide (scope = ScopeNewAndUpdated) then
    RLock >> setLifetime d >> RUnlock >> ret None
  else if decide (scope = ScopeNew) then
    ret (Some (NotSupportedError "ScopeNew"))
  else
    ret (Some (NotSupportedError (Itoa scope))).

Definition SetTransient (value : bool) : M unit :=
  RLock >> setIsTransient value >> RUnlock.

End memstore.

Import memstore.

(** ** Notions used to state the properties *)

(** What is left of a map once the entries expired at [now] are removed. *)
Definition live (now : Time) (vs : gmap string MemData.t)
  : gmap string MemData.t :=
  filter (λ kd, MemData.IsExpired now kd.2 = false) vs.

(** Whether the entry under [i], if any, is expired at [now]. *)
Definition expiredAt (now : Time) (vs : gmap string MemData.t) (i : string)
  : bool :=
  match vs !! i with
  | Some d => MemData.IsExpired now d
  | None => false
  end.

(** Whether the sweep is skipped at [now]. *)
Definition skipped (now : Time) (s : Store) : bool :=
  After (TimeAdd (lastgc s) (lifetime s `quot` 5)) now.

(** The map a method works on once its call to [gc] has returned. *)
Definition swept (now : Time) (s : Store) : gmap string MemData.t :=
  if skipped now s then values s else live now (values s).

(** The entry [Get] and [Set] leave under the key they found: renewed
    unless the store is transient. *)
Definition touch (now : Time) (s : Store) (d : MemData.t) : MemData.t :=
  if negb (isTransient s)
  then MemData.Hit now (MemData.SetLifetime (lifetime s) d)
  else d.

(** Whether an operation on the mutex or an access to the map respects the
    lock discipline: the mutex is never taken while held nor released in a
    mode in which it is not held, the map is read with the mutex held in
    some mode and written with the mutex held in write mode. *)
Definition event_ok (e : Event) : bool :=
  match e with
  | EvRLock held | EvLock held => bool_decide (held = Unlocked)
  | EvRUnlock held => bool_decide (held = ReadLocked)
  | EvUnlock held => bool_decide (held = WriteLocked)
  | EvRead held => negb (bool_decide (held = Unlocked))
  | EvWrite held => bool_decide (held = WriteLocked)
  end.

Definition disciplined (evs : list Event) : bool := forallb event_ok evs.

(** A method respects the lock discipline when, called with the mutex not
    held, everything it does to the mutex and to the map is [event_ok] and
    it returns with the mutex released. *)
Definition wellLocked {A} (m : M A) : Prop :=
  ∀ s, mutex s = Unlocked →
    ∃ evs, events (m s).2 = events s ++ evs ∧
           disciplined evs = true ∧
           mutex (m s).2 = Unlocked.

(** A store reached by calls to its methods: two entries added at instants
    90 and 95 with a lifetime of 10, and a sweep at instant 100. *)
Definition reached : Store :=
  let s0 := New 0 10 false in
  let s1 := (Add 90 "old" (Some (VInt 1)) s0).2 in
  let s2 := (Add 95 "new" (Some (VInt 2)) s1).2 in
  (GC 100 s2).2.

(** ** IndereferenceError.Error *)

(** [reflect.Type.String] on the types of the embedding. *)
Fixpoint TypeString (t : GoType) : string :=
  match t with
  | TInt => "int"
  | TString => "string"
  | TBool => "bool"
  | TEmptyInterface => "interface {}"
  | TPtr elem => "*" +:+ TypeString elem
  end.

(** The [Error] method of [IndereferenceError], on its [Type] field. *)
Definition IndereferenceError_Error (type : option GoType) : string :=
  match type with
  | None => "cannot unwrap to nil"
  | Some t =>
      match t with
      | TPtr _ => "Invalid type " +:+ TypeString t
      | _ => "The type " +:+ TypeString t +:+ " is not a pointer"
      end
  end.

(** ** mongoData: the document of the MongoDB-backed store *)

Module mongoData.

Record t := mk {
  CreatedAt : Time;
  Key : string;
  Value : string
}.

Definition IsExpired (now : Time) (lifetime : Duration) (d : t) : bool :=
  After now (TimeAdd (CreatedAt d) lifetime).

End mongoData.

(** ** MemStore: the store of src/memstore.go

    The earlier in-memory store.  Its struct has the fields [values],
    [lifetime], [isTransient] and [mutex] of [memstore.Store] and no
    [lastgc]: its sweep has no minimum interval.  It is run on the same
    state; none of its methods reads or writes [lastgc]. *)

Module MemStore.

Definition NewCacheStore (d : Duration) : Store :=
  {| values := ∅; lifetime := d; isTransient := false;
     mutex := Unlocked; lastgc := 0; events := [] |}.

Definition NewTransientStore (d : Duration) : Store :=
  {| values := ∅; lifetime := d; isTransient := true;
     mutex := Unlocked; lastgc := 0; events := [] |}.

Definition gc (now : Time) : M LockStatus :=
  RLock >>
  let* keys := rangeKeys in
  let* writeLocked := gc_range now keys false in
  if writeLocked then ret WriteLocked else ret ReadLocked.

Definition unsafeGet (key : string) : M (MemData.t + error) :=
  let* v := lookupValue key in
  match v with
  | None => ret (inr (InvalidKeyError key))
  | Some d => ret (inl d)
  end.

Definition Add (now : Time) (key : string) (value : iface)
  : M (option error) :=
  let* lckStatus := gc now in
  let* lt := get lifetime in
  let data := MemData.NewMemData now lt value in
  (if decide (lckStatus = ReadLocked) then RUnlock >> Lock else ret tt) >>
  let* found := lookupValue key in
  match found with
  | Some _ => Unlock >> ret (Some (DuplicatedKeyError key))
  | None => storeValue key data >> Unlock >> ret None
  end.

Definition Count (now : Time) : M (Z * option error) :=
  let* st := gc now in
  let* n := lenValues in
  (if decide (st = WriteLocked) then Unlock else RUnlock) >>
  ret (n, None).

Definition Delete (now : Time) (key : string) : M (option error) :=
  let* lckStatus := gc now in
  let* r := unsafeGet key in
  match r with
  | inr err =>
      (if decide (lckStatus = WriteLocked) then Unlock else RUnlock) >>
      ret (Some err)
  | inl _ =>
      (if decide (lckStatus = ReadLocked) then RUnlock >> Lock else ret tt) >>
      deleteValue key >>
      Unlock >>
      ret None
  end.

Definition Flush : M (option error) :=
  Lock >> makeValues >> Unlock >> ret None.

Definition Get (now : Time) (key : string) (ref : iface) (mem : Memory)
  : M (outcome * Memory) :=
  let* st := gc now in
  (if decide (st = WriteLocked) then Unlock >> RLock else ret tt) >>
  let* r := unsafeGet key in
  match r with
  | inr err => RUnlock >> ret (Return (Some err), mem)
  | inl v =>
      let* transient := get isTransient in
      let* lt := get lifetime in
      let v :=
        if negb transient
        then MemData.Hit now (MemData.SetLifetime lt v)
        else v in
      poke key v >>
      let res := setValue (MemData.Value v) ref mem in
      RUnlock >> ret res
  end.

Definition GC (now : Time) : M unit :=
  let* lckStatus := gc now in
  if decide (lckStatus = ReadLocked) then RUnlock else Unlock.

(** [Set]; the name is a keyword of Rocq. *)
Definition Set_ (now : Time) (key : string) (value : iface)
  : M (option error) :=
  let* st := gc now in
  (if decide (st = WriteLocked) then Unlock >> RLock else ret tt) >>
  let* r := unsafeGet key in
  match r with
  | inr err => RUnlock >> ret (Some err)
  | inl v =>
      let v := MemData.SetValue value v in
      let* transient := get isTransient in
      let* lt := get lifetime in
      let v :=
        if negb transient
        then MemData.Hit now (MemData.SetLifetime lt v)
        else v in
      poke key v >>
      RUnlock >> ret None
  end.

Definition SetLifetime (d : Duration) : M unit :=
  RLock >> setLifetime d >> RUnlock.

Definition SetTransient (value : bool) : M unit :=
  RLock >> setIsTransient value >> RUnlock.

End MemStore.

(** The entry a renewal at [now] with the default lifetime [lt] leaves. *)
Definition renewed (now : Time) (lt : Duration) (d : MemData.t) : MemData.t :=
  MemData.mk (now + lt) lt (MemData.value d).

(** * Properties *)

Example new_store_add_get :
  let s0 := New 0 10 false in
  let '(e1, s1) := Add 100 "k" (Some (VInt 7)) s0 in
  let '(r, s2) := Get 105 "k" (Some (VPtr TInt (Some 1))) ∅ s1 in
  e1 = None ∧ r = (Return None, {[ 1 := Some (VInt 7) ]}) ∧
  values s2 !! "k" = Some (MemData.mk 115 10 (Some (VInt 7))).
Proof. vm_compute. done. Qed.

Example reached_state :
  values reached =
    {[ "old" := MemData.mk 100 10 (Some (VInt 1));
       "new" := MemData.mk 105 10 (Some (VInt 2)) ]} ∧
  lifetime reached = 10 ∧ isTransient reached = false ∧
  mutex reached = Unlocked ∧ lastgc reached = 100 ∧
  disciplined (events reached) = true.
Proof. vm_compute. done. Qed.

(** ** Time and entries *)

Lemma After_spec (t u : Time) : After t u = true ↔ u < t.
Proof. unfold After. apply Z.ltb_lt. Qed.

Lemma IsExpired_true now d :
  MemData.IsExpired now d = true ↔ MemData.expireAt d < now.
Proof. apply After_spec. Qed.

Lemma IsExpired_false now d :
  MemData.IsExpired now d = false ↔ now ≤ MemData.expireAt d.
Proof. unfold MemData.IsExpired, After. rewrite Z.ltb_ge. done. Qed.

(** ** The sweep *)

Lemma live_lookup now vs k :
  live now vs !! k =
  match vs !! k with
  | Some d => if MemData.IsExpired now d then None else Some d
  | None => None
  end.
Proof.
  unfold live. destruct (vs !! k) as [d|] eqn:Hk.
  - destruct (MemData.IsExpired now d) eqn:He.
    + apply map_lookup_filter_None. right. intros d' Hd'. simpl.
      rewrite Hk in Hd'. injection Hd' as <-. rewrite He. done.
    + apply map_lookup_filter_Some. done.
  - apply map_lookup_filter_None. left. done.
Qed.

Section gc_range.

Variable now : Time.

(** One iteration of the loop. *)
Lemma gc_range_cons i keys wl s :
  gc_range now (i :: keys) wl s =
  let s1 := (log EvRead s).2 in
  match values s !! i with
  | Some d =>
      if MemData.IsExpired now d
      then gc_range now keys true
             (((if wl then ret tt else RUnlock >> Lock) >> deleteValue i) s1).2
      else gc_range now keys wl s1
  | None => gc_range now keys wl s1
  end.
Proof.
  simpl. unfold bind at 1. simpl.
  destruct (values s !! i) as [d|]; [|done].
  destruct (MemData.IsExpired now d); [|done].
  destruct wl; done.
Qed.

Lemma gc_range_fields keys : ∀ wl s,
  lifetime (gc_range now keys wl s).2 = lifetime s ∧
  isTransient (gc_range now keys wl s).2 = isTransient s ∧
  lastgc (gc_range now keys wl s).2 = lastgc s.
Proof.
  induction keys as [|i keys IH]; intros wl s; [done|].
  rewrite gc_range_cons. simpl.
  destruct (values s !! i) as [d|]; [destruct (MemData.IsExpired now d)|];
    [destruct wl|..];
    match goal with
    | |- context [gc_range now keys ?w ?s0] =>
        destruct (IH w s0) as (-> & -> & ->)
    end; done.
Qed.

Lemma gc_range_lookup keys : ∀ wl s k,
  values (gc_range now keys wl s).2 !! k =
  if bool_decide (k ∈ keys) && expiredAt now (values s) k
  then None else values s !! k.
Proof.
  induction keys as [|i keys IH]; intros wl s k; [done|].
  rewrite gc_range_cons. simpl.
  assert (Hin : k ≠ i → bool_decide (k ∈ i :: keys) = bool_decide (k ∈ keys)).
  { intros Hne. apply bool_decide_ext. rewrite elem_of_cons. tauto. }
  destruct (values s !! i) as [d|] eqn:Hi.
  - destruct (MemData.IsExpired now d) eqn:He.
    + assert (Hdel : ∀ s0, values s0 = values s →
        values (((if wl then ret tt else RUnlock >> Lock) >>
                   deleteValue i) s0).2 = delete i (values s)).
      { intros s0 <-. destruct wl; done. }
      rewrite IH, Hdel by done.
      unfold expiredAt. destruct (decide (k = i)) as [->|Hne].
      * rewrite lookup_delete_eq, Hi, He, andb_false_r.
        rewrite bool_decide_true by apply list_elem_of_here. done.
      * rewrite lookup_delete_ne, Hin by done. done.
    + rewrite IH. simpl. destruct (decide (k = i)) as [->|Hne].
      * unfold expiredAt. rewrite Hi, He, !andb_false_r. done.
      * rewrite Hin by done. done.
  - rewrite IH. simpl. destruct (decide (k = i)) as [->|Hne].
    + unfold expiredAt. rewrite Hi, !andb_false_r. done.
    + rewrite Hin by done. done.
Qed.

Lemma gc_range_result keys : ∀ wl s,
  (gc_range now keys wl s).1 = wl || existsb (expiredAt now (values s)) keys.
Proof.
  induction keys as [|i keys IH]; intros wl s.
  { simpl. rewrite orb_false_r. done. }
  rewrite gc_range_cons. simpl. unfold expiredAt at 1.
  destruct (values s !! i) as [d|] eqn:Hi; [|by rewrite IH].
  destruct (MemData.IsExpired now d) eqn:He; [|by rewrite IH].
  rewrite IH, orb_true_r. done.
Qed.

End gc_range.

Section gc.

Variables (now : Time) (s : Store).

(** A skipped sweep does nothing at all. *)
Lemma gc_skipped : skipped now s = true → gc now s = (Unlocked, s).
Proof.
  unfold skipped. intros Hskip. unfold gc, bind, get. rewrite Hskip. done.
Qed.

(** The keys the range of the sweep goes through are the keys of the
    map. *)
Lemma elem_of_keys (vs : gmap string MemData.t) k :
  k ∈ (map_to_list vs).*1 ↔ is_Some (vs !! k).
Proof.
  rewrite list_elem_of_fmap. split.
  - intros [[k' d] [-> Hin]]. apply elem_of_map_to_list in Hin. eauto.
  - intros [d Hd]. exists (k, d). split; [done|].
    apply elem_of_map_to_list. done.
Qed.

Lemma existsb_expiredAt (vs : gmap string MemData.t) :
  existsb (expiredAt now vs) (map_to_list vs).*1 = true ↔
  ∃ k d, vs !! k = Some d ∧ MemData.IsExpired now d = true.
Proof.
  rewrite existsb_exists. unfold expiredAt. split.
  - intros (k & _ & Hk). destruct (vs !! k) as [d|] eqn:Hd; [eauto|done].
  - intros (k & d & Hd & He). exists k. split.
    + apply list_elem_of_In, elem_of_keys. eauto.
    + rewrite Hd. done.
Qed.

Hypothesis Hrun : skipped now s = false.

Lemma gc_run_values : values (gc now s).2 = live now (values s).
Proof.
  unfold skipped in Hrun. unfold gc, bind, get. rewrite Hrun. simpl.
  match goal with
  | |- context [gc_range now ?ks false ?s0] =>
      destruct (gc_range now ks false s0) as [wl s'] eqn:Hr;
      pose proof (gc_range_lookup now ks false s0) as Hl;
      rewrite Hr in Hl
  end.
  simpl in Hl. apply map_eq. intros k.
  transitivity (values s' !! k); [destruct wl; done|].
  rewrite Hl, live_lookup. unfold expiredAt.
  destruct (values s !! k) as [d|] eqn:Hk.
  - rewrite bool_decide_true by (apply elem_of_keys; eauto). done.
  - rewrite andb_false_r. done.
Qed.

Lemma gc_run_fields :
  lifetime (gc now s).2 = lifetime s ∧
  isTransient (gc now s).2 = isTransient s ∧
  lastgc (gc now s).2 = now.
Proof.
  unfold skipped in Hrun. unfold gc, bind, get. rewrite Hrun. simpl.
  match goal with
  | |- context [gc_range now ?ks false ?s0] =>
      destruct (gc_range now ks false s0) as [wl s'] eqn:Hr;
      pose proof (gc_range_fields now ks false s0) as Hf;
      rewrite Hr in Hf
  end.
  destruct wl; exact Hf.
Qed.

Lemma gc_run_status :
  (gc now s).1 =
  if existsb (expiredAt now (values s)) (map_to_list (values s)).*1
  then WriteLocked else ReadLocked.
Proof.
  unfold skipped in Hrun. unfold gc, bind, get. rewrite Hrun. simpl.
  match goal with
  | |- context [gc_range now ?ks false ?s0] =>
      destruct (gc_range now ks false s0) as [wl s'] eqn:Hr;
      pose proof (gc_range_result now ks false s0) as Hres;
      rewrite Hr in Hres
  end.
  simpl in Hres. rewrite <- Hres. destruct wl; done.
Qed.

End gc.

Lemma gc_spec now s :
  values (gc now s).2 = swept now s ∧
  lifetime (gc now s).2 = lifetime s ∧
  isTransient (gc now s).2 = isTransient s ∧
  lastgc (gc now s).2 = (if skipped now s then lastgc s else now).
Proof.
  unfold swept. destruct (skipped now s) eqn:Hskip.
  - rewrite gc_skipped by done. done.
  - rewrite gc_run_values by done.
    destruct (gc_run_fields now s Hskip) as (-> & -> & ->). done.
Qed.

(** Runs the call to [gc] that opens a method, on the store [s]. *)
Ltac run_gc now s :=
  let st := fresh "st" in
  let s1 := fresh "s1" in
  let Hv := fresh "Hvalues" in
  let Hl := fresh "Hlifetime" in
  let Ht := fresh "Htransient" in
  let Hg := fresh "Hlastgc" in
  destruct (gc_spec now s) as (Hv & Hl & Ht & Hg);
  unfold bind;
  destruct (gc now s) as [st s1];
  simpl in Hv, Hl, Ht, Hg.

(** ** What each method returns and leaves in the store *)

Lemma Add_spec now key v s :
  (Add now key v s).1 =
    (if swept now s !! key is Some _
     then Some (DuplicatedKeyError key) else None) ∧
  values (Add now key v s).2 =
    (if swept now s !! key is Some _ then swept now s
     else <[key := MemData.NewMemData now (lifetime s) v]> (swept now s)) ∧
  lifetime (Add now key v s).2 = lifetime s ∧
  isTransient (Add now key v s).2 = isTransient s.
Proof.
  unfold Add. run_gc now s.
  destruct st; simpl; rewrite Hvalues, ?Hlifetime;
    destruct (swept now s !! key); done.
Qed.

Lemma Get_spec now key ref mem s :
  match swept now s !! key with
  | Some d =>
      (Get now key ref mem s).1 =
        setValue (MemData.Value (touch now s d)) ref mem ∧
      values (Get now key ref mem s).2 = <[key := touch now s d]> (swept now s)
  | None =>
      (Get now key ref mem s).1 = (Return (Some (InvalidKeyError key)), mem) ∧
      values (Get now key ref mem s).2 = swept now s
  end.
Proof.
  unfold Get, unsafeGet, touch. run_gc now s.
  destruct st; simpl; rewrite Hvalues, ?Hlifetime, ?Htransient;
    destruct (swept now s !! key); simpl;
    rewrite ?Hvalues, ?Hlifetime, ?Htransient; done.
Qed.

Lemma Set_spec now key v s :
  match swept now s !! key with
  | Some d =>
      (Set_ now key v s).1 = None ∧
      values (Set_ now key v s).2 =
        <[key := touch now s (MemData.SetValue v d)]> (swept now s)
  | None =>
      (Set_ now key v s).1 = Some (InvalidKeyError key) ∧
      values (Set_ now key v s).2 = swept now s
  end.
Proof.
  unfold Set_, unsafeGet, touch. run_gc now s.
  destruct st; simpl; rewrite Hvalues, ?Hlifetime, ?Htransient;
    destruct (swept now s !! key); simpl;
    rewrite ?Hvalues, ?Hlifetime, ?Htransient; done.
Qed.

Lemma Delete_spec now key s :
  match swept now s !! key with
  | Some d =>
      (Delete now key s).1 = None ∧
      values (Delete now key s).2 = delete key (swept now s)
  | None =>
      (Delete now key s).1 = Some (InvalidKeyError key) ∧
      values (Delete now key s).2 = swept now s
  end.
Proof.
  unfold Delete, unsafeGet. run_gc now s.
  destruct st; simpl; rewrite Hvalues;
    destruct (swept now s !! key); simpl; rewrite ?Hvalues; done.
Qed.

Lemma Count_spec now s :
  (Count now s).1 = (Z.of_nat (size (swept now s)), None).
Proof.
  unfold Count. run_gc now s.
  destruct st; simpl; rewrite Hvalues; done.
Qed.

Lemma SetLifetime_ScopeAll_spec now d s :
  (SetLifetime now d ScopeAll s).1 = None ∧
  values (SetLifetime now d ScopeAll s).2 =
    MemData.SetLifetime d <$> swept now s ∧
  lifetime (SetLifetime now d ScopeAll s).2 = d ∧
  isTransient (SetLifetime now d ScopeAll s).2 = isTransient s.
Proof.
  unfold SetLifetime. simpl. run_gc now s.
  destruct st; simpl; rewrite Hvalues, ?Htransient; done.
Qed.

(** *** The swept map *)

Lemma swept_lookup_None now s k :
  values s !! k = None → swept now s !! k = None.
Proof.
  intros Hk. unfold swept. destruct (skipped now s); [done|].
  rewrite live_lookup, Hk. done.
Qed.

Lemma swept_lookup_live now s k d :
  values s !! k = Some d → MemData.IsExpired now d = false →
  swept now s !! k = Some d.
Proof.
  intros Hk He. unfold swept. destruct (skipped now s); [done|].
  rewrite live_lookup, Hk, He. done.
Qed.

Lemma swept_lookup_expired now s k d :
  skipped now s = false →
  values s !! k = Some d → MemData.IsExpired now d = true →
  swept now s !! k = None.
Proof.
  intros Hrun Hk He. unfold swept. rewrite Hrun, live_lookup, Hk, He. done.
Qed.

Lemma swept_lookup_Some now s k d :
  swept now s !! k = Some d → values s !! k = Some d.
Proof.
  unfold swept. destruct (skipped now s); [done|].
  rewrite live_lookup. destruct (values s !! k) as [d'|]; [|done].
  destruct (MemData.IsExpired now d'); done.
Qed.

(** ** The lock held by the sweep *)

Lemma gc_range_locks now keys : ∀ (wl : bool) (s : Store),
  mutex s = (if wl then WriteLocked else ReadLocked) →
  ∃ evs,
    events (gc_range now keys wl s).2 = events s ++ evs ∧
    disciplined evs = true ∧
    mutex (gc_range now keys wl s).2 =
      (if (gc_range now keys wl s).1 then WriteLocked else ReadLocked).
Proof.
  induction keys as [|i keys IH]; intros wl s Hm.
  { exists (@nil Event). rewrite app_nil_r. simpl. destruct wl; done. }
  rewrite gc_range_cons. simpl.
  destruct (values s !! i) as [d|]; [destruct (MemData.IsExpired now d)|];
    [destruct wl|..];
    match goal with
    | |- context [gc_range now keys ?w ?s0] =>
        destruct (IH w s0) as (evs & -> & Hd & ->); [simpl; try done|]
    end; simpl; rewrite Hm, <- ?app_assoc; simpl.
  - exists (EvRead WriteLocked :: EvWrite WriteLocked :: evs). done.
  - exists (EvRead ReadLocked :: EvRUnlock ReadLocked :: EvLock Unlocked ::
            EvWrite WriteLocked :: evs). done.
  - exists (EvRead (if wl then WriteLocked else ReadLocked) :: evs).
    destruct wl; done.
  - exists (EvRead (if wl then WriteLocked else ReadLocked) :: evs).
    destruct wl; done.
Qed.

Lemma gc_locks now s :
  mutex s = Unlocked →
  ∃ evs,
    events (gc now s).2 = events s ++ evs ∧
    disciplined evs = true ∧
    mutex (gc now s).2 = (gc now s).1.
Proof.
  intros Hm. unfold gc, bind, get.
  destruct (After (TimeAdd (lastgc s) (lifetime s `quot` 5)) now).
  { exists (@nil Event). rewrite app_nil_r. done. }
  simpl.
  match goal with
  | |- context [gc_range now ?ks false ?s0] =>
      destruct (gc_range_locks now ks false s0) as (evs & Hev & Hd & Hmu);
        [done|];
      destruct (gc_range now ks false s0) as [wl s']
  end.
  simpl in Hev, Hmu.
  exists (EvRLock Unlocked :: EvRead ReadLocked :: evs).
  rewrite Hm, <- !app_assoc in Hev. destruct wl; simpl; rewrite Hev, Hd; done.
Qed.

Lemma gc_Unlocked now s : (gc now s).1 = Unlocked ↔ skipped now s = true.
Proof.
  destruct (skipped now s) eqn:Hskip.
  - rewrite gc_skipped by done. done.
  - rewrite gc_run_status by done.
    destruct (existsb _ _); done.
Qed.

(** * The claims about the sweep *)

(** C7. When the sweep runs (it is not skipped by the interval guard), it
    removes from the map exactly the entries whose [expireAt] has passed and
    leaves every other entry in place, it adds no key, and it returns
    [WriteLocked] if at least one entry was deleted and [ReadLocked]
    otherwise; the mutex is then held in the mode the result tells. *)
Theorem gc_deletes_exactly_the_expired now s :
  skipped now s = false →
  mutex s = Unlocked →
  let deletion :=
    ∃ k, is_Some (values s !! k) ∧ values (gc now s).2 !! k = None in
  (∀ k d, values s !! k = Some d →
     values (gc now s).2 !! k =
       if MemData.IsExpired now d then None else Some d) ∧
  (∀ k, values s !! k = None → values (gc now s).2 !! k = None) ∧
  (deletion → (gc now s).1 = WriteLocked) ∧
  (¬ deletion → (gc now s).1 = ReadLocked) ∧
  mutex (gc now s).2 = (gc now s).1.
Proof.
  intros Hrun Hm deletion.
  assert (Hlook : ∀ k, values (gc now s).2 !! k =
    match values s !! k with
    | Some d => if MemData.IsExpired now d then None else Some d
    | None => None
    end).
  { intros k. rewrite gc_run_values by done. apply live_lookup. }
  assert (Hdel : deletion ↔
    ∃ k d, values s !! k = Some d ∧ MemData.IsExpired now d = true).
  { unfold deletion. split.
    - intros (k & [d Hd] & Hgone). exists k, d. split; [done|].
      rewrite Hlook, Hd in Hgone. destruct (MemData.IsExpired now d); done.
    - intros (k & d & Hd & He). exists k. split; [eauto|].
      rewrite Hlook, Hd, He. done. }
  repeat split.
  - intros k d Hd. rewrite Hlook, Hd. done.
  - intros k Hk. rewrite Hlook, Hk. done.
  - intros Hsome. rewrite gc_run_status by done.
    apply Hdel, existsb_expiredAt in Hsome. rewrite Hsome. done.
  - intros Hnone. rewrite gc_run_status by done.
    destruct (existsb _ _) eqn:Hex; [|done].
    apply existsb_expiredAt, Hdel in Hex. done.
  - destruct (gc_locks now s Hm) as (evs & _ & _ & Hmu). done.
Qed.

Lemma gc_deletes_exactly_the_expired_witness :
  skipped 103 reached = false ∧ mutex reached = Unlocked ∧
  values (gc 103 reached).2 !! "old" = None ∧
  values (gc 103 reached).2 !! "new" =
    Some (MemData.mk 105 10 (Some (VInt 2))) ∧
  (gc 103 reached).1 = WriteLocked ∧
  mutex (gc 103 reached).2 = (gc 103 reached).1.
Proof.
  assert (Hrun : skipped 103 reached = false) by (vm_compute; reflexivity).
  assert (Hm : mutex reached = Unlocked) by (vm_compute; reflexivity).
  destruct (gc_deletes_exactly_the_expired 103 reached Hrun Hm)
    as (Hexp & _ & Hw & _ & Hmu).
  assert (Hold : values (gc 103 reached).2 !! "old" = None).
  { apply (Hexp "old" (MemData.mk 100 10 (Some (VInt 1)))).
    vm_compute. reflexivity. }
  split; [exact Hrun|]. split; [exact Hm|]. split; [exact Hold|].
  split; [|split; [|exact Hmu]].
  - apply (Hexp "new" (MemData.mk 105 10 (Some (VInt 2)))).
    vm_compute. reflexivity.
  - apply Hw. exists "old". split; [|exact Hold].
    exists (MemData.mk 100 10 (Some (VInt 1))). vm_compute. reflexivity.
Defined.

(** C8. The sweep is skipped, returning [Unlocked] and leaving the store as
    it is, if and only if less than one fifth of the current lifetime of the
    store (the duration [lifetime / 5]) has elapsed since the previous
    sweep; when it runs, it records the current time as the time of the last
    sweep. *)
Theorem gc_interval_guard now s :
  let tooEarly := now - lastgc s < lifetime s `quot` 5 in
  ((gc now s).1 = Unlocked ↔ tooEarly) ∧
  (skipped now s = true ↔ tooEarly) ∧
  (tooEarly → (gc now s).2 = s) ∧
  (¬ tooEarly → lastgc (gc now s).2 = now).
Proof.
  intros tooEarly.
  assert (Hskip : skipped now s = true ↔ tooEarly).
  { unfold skipped, tooEarly, TimeAdd. rewrite After_spec. lia. }
  split; [|split; [exact Hskip|]]. all: repeat split.
  - intros Hu. apply Hskip, gc_Unlocked, Hu.
  - intros Ht. apply gc_Unlocked, Hskip, Ht.
  - intros Ht. rewrite gc_skipped by (apply Hskip, Ht). done.
  - intros Ht. destruct (skipped now s) eqn:Hs.
    + destruct Ht. apply Hskip. done.
    + destruct (gc_run_fields now s Hs) as (_ & _ & Hl). done.
Qed.

(** * The claims about expired entries *)

(** C1, as stated, fails: in the store [reached], at instant 101 the entry
    under ["old"] is expired (its [expireAt] is 100) and the sweep is
    skipped (the last one was at 100 and the minimum interval is 2); [Get]
    then succeeds, copies the value into the destination and renews the
    entry, and [Set] and [Delete] succeed too. *)
Lemma expired_entry_served_when_sweep_skipped :
  let ref := Some (VPtr TInt (Some 1)) in
  (MemData.IsExpired 101 <$> values reached !! "old") = Some true ∧
  (gc 101 reached).1 = Unlocked ∧
  (Get 101 "old" ref ∅ reached).1 = (Return None, {[ 1 := Some (VInt 1) ]}) ∧
  values (Get 101 "old" ref ∅ reached).2 !! "old" =
    Some (MemData.mk 111 10 (Some (VInt 1))) ∧
  (Set_ 101 "old" (Some (VInt 5)) reached).1 = None ∧
  (Delete 101 "old" reached).1 = None.
Proof. vm_compute. done. Qed.

(** The same holds in every store: when the sweep is skipped, an entry still
    in the map is found whether it is expired or not. *)
Lemma entry_found_when_sweep_skipped now k d s ref mem v :
  skipped now s = true →
  values s !! k = Some d →
  (Get now k ref mem s).1 =
    setValue (MemData.Value (touch now s d)) ref mem ∧
  values (Get now k ref mem s).2 !! k = Some (touch now s d) ∧
  (Set_ now k v s).1 = None ∧
  (Delete now k s).1 = None.
Proof.
  intros Hskip Hk.
  assert (Hfound : swept now s !! k = Some d).
  { unfold swept. rewrite Hskip. done. }
  pose proof (Get_spec now k ref mem s) as HG.
  pose proof (Set_spec now k v s) as HS.
  pose proof (Delete_spec now k s) as HD.
  rewrite Hfound in HG, HS, HD.
  destruct HG as [-> ->], HS as [-> _], HD as [-> _].
  rewrite lookup_insert_eq. done.
Qed.

(** C1, amended. For every key whose entry is expired (the current time is
    past its [expireAt]), [Get], [Set] and [Delete] fail with
    [InvalidKeyError] whenever the sweep that opens the call runs (is not
    skipped by the minimum-interval guard); on that failure nothing is
    copied into the destination and the entry is not renewed: it is gone
    from the map. *)
Theorem expired_entry_invalid_when_swept now k d s ref mem v :
  skipped now s = false →
  values s !! k = Some d →
  MemData.expireAt d < now →
  (Get now k ref mem s).1 = (Return (Some (InvalidKeyError k)), mem) ∧
  values (Get now k ref mem s).2 !! k = None ∧
  (Set_ now k v s).1 = Some (InvalidKeyError k) ∧
  values (Set_ now k v s).2 !! k = None ∧
  (Delete now k s).1 = Some (InvalidKeyError k) ∧
  values (Delete now k s).2 !! k = None.
Proof.
  intros Hrun Hk He. apply IsExpired_true in He.
  pose proof (swept_lookup_expired now s k d Hrun Hk He) as Hgone.
  pose proof (Get_spec now k ref mem s) as HG.
  pose proof (Set_spec now k v s) as HS.
  pose proof (Delete_spec now k s) as HD.
  rewrite Hgone in HG, HS, HD.
  destruct HG as [-> ->], HS as [-> ->], HD as [-> ->]. done.
Qed.

Lemma expired_entry_invalid_when_swept_witness :
  skipped 103 reached = false ∧
  values reached !! "old" = Some (MemData.mk 100 10 (Some (VInt 1))) ∧
  (Get 103 "old" (Some (VPtr TInt (Some 1))) ∅ reached).1 =
    (Return (Some (InvalidKeyError "old")), ∅) ∧
  (Set_ 103 "old" None reached).1 = Some (InvalidKeyError "old") ∧
  (Delete 103 "old" reached).1 = Some (InvalidKeyError "old").
Proof.
  assert (Hrun : skipped 103 reached = false) by (vm_compute; reflexivity).
  assert (Hk : values reached !! "old" =
                 Some (MemData.mk 100 10 (Some (VInt 1))))
    by (vm_compute; reflexivity).
  destruct (expired_entry_invalid_when_swept 103 "old" _ reached
              (Some (VPtr TInt (Some 1))) ∅ None Hrun Hk)
    as (HG & _ & HS & _ & HD & _); [simpl; lia|].
  split; [exact Hrun|]. split; [exact Hk|]. split; [exact HG|].
  split; [exact HS|exact HD].
Defined.

(** * The claims about Add and Get *)

(** C4. For every key not in the store and every value [v], [Add] succeeds
    and a [Get] that follows within the lifetime, with a destination that is
    a non-nil pointer to a variable of the type of [v], succeeds and stores
    [v] in that variable. *)
Theorem Add_then_Get t1 t2 k (v : GoValue) l mem s :
  values s !! k = None →
  t2 ≤ t1 + lifetime s →
  let s1 := (Add t1 k (Some v) s).2 in
  (Add t1 k (Some v) s).1 = None ∧
  (Get t2 k (Some (VPtr (TypeOf v) (Some l))) mem s1).1 =
    (Return None, <[l := Some v]> mem).
Proof.
  intros Hk Hwin s1.
  destruct (Add_spec t1 k (Some v) s) as (Hret & Hvals & Hlife & _).
  rewrite (swept_lookup_None t1 s k Hk) in Hret, Hvals.
  split; [exact Hret|].
  pose proof (Get_spec t2 k (Some (VPtr (TypeOf v) (Some l))) mem s1) as HG.
  rewrite (swept_lookup_live t2 s1 k
             (MemData.NewMemData t1 (lifetime s) (Some v))) in HG.
  - destruct HG as [-> _].
    unfold touch. destruct (negb (isTransient s1)); simpl;
      unfold AssignableTo; rewrite bool_decide_true by done; done.
  - unfold s1. rewrite Hvals. apply lookup_insert_eq.
  - apply IsExpired_false. simpl. unfold TimeAdd. lia.
Qed.

Lemma Add_then_Get_witness :
  let s := New 0 10 false in
  values s !! "k" = None ∧ 105 ≤ 100 + lifetime s ∧
  (Add 100 "k" (Some (VInt 7)) s).1 = None ∧
  (Get 105 "k" (Some (VPtr TInt (Some 1))) ∅
     (Add 100 "k" (Some (VInt 7)) s).2).1 =
    (Return None, <[1 := Some (VInt 7)]> ∅).
Proof.
  intros s.
  assert (Hk : values s !! "k" = None) by (vm_compute; reflexivity).
  assert (Hwin : 105 ≤ 100 + lifetime s) by (simpl; lia).
  split; [exact Hk|]. split; [exact Hwin|].
  exact (Add_then_Get 100 105 "k" (VInt 7) 1 ∅ s Hk Hwin).
Defined.

(** C5. For every key with a live entry, [Add] fails with
    [DuplicatedKeyError] and the entry stored under the key is the same
    after the call: its value and its [expireAt] are unchanged.  Nothing is
    mutated in part: the map is as the sweep that opens the call left it,
    and the default lifetime and the transient flag are unchanged. *)
Theorem Add_duplicate now k v2 d s :
  values s !! k = Some d →
  MemData.IsExpired now d = false →
  (Add now k v2 s).1 = Some (DuplicatedKeyError k) ∧
  values (Add now k v2 s).2 !! k = Some d ∧
  values (Add now k v2 s).2 = values (gc now s).2 ∧
  lifetime (Add now k v2 s).2 = lifetime s ∧
  isTransient (Add now k v2 s).2 = isTransient s.
Proof.
  intros Hk Hlive.
  destruct (Add_spec now k v2 s) as (Hret & Hvals & Hlife & Htr).
  destruct (gc_spec now s) as (Hgc & _).
  pose proof (swept_lookup_live now s k d Hk Hlive) as Hfound.
  rewrite Hfound in Hret, Hvals. rewrite Hret, Hvals, Hgc. done.
Qed.

Lemma Add_duplicate_witness :
  let d := MemData.mk 105 10 (Some (VInt 2)) in
  values reached !! "new" = Some d ∧ MemData.IsExpired 103 d = false ∧
  (Add 103 "new" (Some (VString "other")) reached).1 =
    Some (DuplicatedKeyError "new") ∧
  values (Add 103 "new" (Some (VString "other")) reached).2 !! "new" = Some d.
Proof.
  intros d.
  assert (Hk : values reached !! "new" = Some d) by (vm_compute; reflexivity).
  assert (Hlive : MemData.IsExpired 103 d = false) by reflexivity.
  split; [exact Hk|]. split; [exact Hlive|].
  destruct (Add_duplicate 103 "new" (Some (VString "other")) d reached
              Hk Hlive) as (Hret & Hsame & _).
  split; [exact Hret|exact Hsame].
Defined.

(** C10. For every key whose live entry stores [nil], [Get] succeeds and
    leaves the memory of the caller as it is, whatever the destination,
    non-nil pointer or not. *)
Theorem Get_nil_value now k ref mem d s :
  values s !! k = Some d →
  MemData.IsExpired now d = false →
  MemData.value d = None →
  (Get now k ref mem s).1 = (Return None, mem).
Proof.
  intros Hk Hlive Hnil.
  pose proof (Get_spec now k ref mem s) as HG.
  rewrite (swept_lookup_live now s k d Hk Hlive) in HG.
  destruct HG as [-> _].
  unfold touch. destruct (negb (isTransient s)); simpl;
    unfold MemData.Value; simpl; rewrite Hnil; done.
Qed.

Lemma Get_nil_value_witness :
  let s := (Add 90 "v1" None (New 0 10 false)).2 in
  let d := MemData.mk 100 10 None in
  values s !! "v1" = Some d ∧ MemData.IsExpired 95 d = false ∧
  (Get 95 "v1" (Some (VInt 3)) {[ 1 := Some (VInt 4) ]} s).1 =
    (Return None, {[ 1 := Some (VInt 4) ]}) ∧
  (Get 95 "v1" None {[ 1 := Some (VInt 4) ]} s).1 =
    (Return None, {[ 1 := Some (VInt 4) ]}).
Proof.
  intros s d.
  assert (Hk : values s !! "v1" = Some d) by (vm_compute; reflexivity).
  assert (Hlive : MemData.IsExpired 95 d = false) by reflexivity.
  split; [exact Hk|]. split; [exact Hlive|]. split.
  - exact (Get_nil_value 95 "v1" (Some (VInt 3)) _ d s Hk Hlive eq_refl).
  - exact (Get_nil_value 95 "v1" None _ d s Hk Hlive eq_refl).
Defined.

(** * The claims about renewal and lifetimes *)

(** C6. A successful [Get] or [Set] on a transient store leaves the
    [expireAt] and the [lifetime] of the entry it found as they were ([Set]
    changing its value only); on a store that is not transient it sets the
    [lifetime] of the entry to the current default of the store and its
    [expireAt] to the current time plus that lifetime. *)
Theorem renewal_on_access now k ref mem v d s :
  values s !! k = Some d →
  ((Get now k ref mem s).1.1 = Return None →
   values (Get now k ref mem s).2 !! k =
     Some (if isTransient s then d
           else MemData.mk (now + lifetime s) (lifetime s)
                  (MemData.value d))) ∧
  ((Set_ now k v s).1 = None →
   values (Set_ now k v s).2 !! k =
     Some (if isTransient s
           then MemData.mk (MemData.expireAt d) (MemData.lifetime d) v
           else MemData.mk (now + lifetime s) (lifetime s) v)).
Proof.
  intros Hk.
  pose proof (Get_spec now k ref mem s) as HG.
  pose proof (Set_spec now k v s) as HS.
  destruct (swept now s !! k) as [d'|] eqn:Hfound.
  - apply swept_lookup_Some in Hfound. rewrite Hk in Hfound.
    injection Hfound as <-.
    destruct HG as [_ ->], HS as [_ ->]. rewrite !lookup_insert_eq.
    unfold touch. destruct d. destruct (isTransient s); done.
  - destruct HG as [-> _], HS as [-> _]. done.
Qed.

Lemma renewal_on_access_witness :
  let d := MemData.mk 105 10 (Some (VInt 2)) in
  let ref := Some (VPtr TInt (Some 1)) in
  values reached !! "new" = Some d ∧
  (Get 101 "new" ref ∅ reached).1.1 = Return None ∧
  values (Get 101 "new" ref ∅ reached).2 !! "new" =
    Some (MemData.mk 111 10 (Some (VInt 2))) ∧
  (Set_ 101 "new" (Some (VInt 9)) reached).1 = None ∧
  values (Set_ 101 "new" (Some (VInt 9)) reached).2 !! "new" =
    Some (MemData.mk 111 10 (Some (VInt 9))).
Proof.
  intros d ref.
  assert (Hk : values reached !! "new" = Some d) by (vm_compute; reflexivity).
  assert (HG : (Get 101 "new" ref ∅ reached).1.1 = Return None)
    by (vm_compute; reflexivity).
  assert (HS : (Set_ 101 "new" (Some (VInt 9)) reached).1 = None)
    by (vm_compute; reflexivity).
  destruct (renewal_on_access 101 "new" ref ∅ (Some (VInt 9)) d reached Hk)
    as [HG' HS'].
  split; [exact Hk|]. split; [exact HG|]. split; [exact (HG' HG)|].
  split; [exact HS|exact (HS' HS)].
Defined.

(** C2, as stated, fails: in the store [reached], at instant 103,
    [SetLifetime(1000, ScopeAll)] succeeds, but the key ["old"], present at
    the call, is no longer in the map (its entry was expired and the sweep
    that opens the call removed it), and the entry under ["new"] has its
    [lifetime] set to 1000 while its [expireAt] is still 105, not
    103 + 1000. *)
Lemma SetLifetime_ScopeAll_keeps_expireAt :
  let s' := (SetLifetime 103 1000 ScopeAll reached).2 in
  (SetLifetime 103 1000 ScopeAll reached).1 = None ∧
  values reached !! "old" = Some (MemData.mk 100 10 (Some (VInt 1))) ∧
  values s' !! "old" = None ∧
  values reached !! "new" = Some (MemData.mk 105 10 (Some (VInt 2))) ∧
  values s' !! "new" = Some (MemData.mk 105 1000 (Some (VInt 2))) ∧
  105 ≠ 103 + 1000.
Proof. vm_compute. repeat split; done. Qed.

(** C2, amended. For every store state, [SetLifetime(d, ScopeAll)] succeeds
    and makes [d] the default lifetime of the store; every entry present at
    the call that the sweep opening the call does not remove (every entry
    that is not expired, and every entry when the sweep is skipped) has its
    [lifetime] reassigned to [d] and keeps its value; the entries expired at
    the call are removed when the sweep runs, and no key is added. *)
Theorem SetLifetime_ScopeAll_entries now dur s :
  let s' := (SetLifetime now dur ScopeAll s).2 in
  (SetLifetime now dur ScopeAll s).1 = None ∧
  lifetime s' = dur ∧
  (∀ k e, values s !! k = Some e →
     if negb (skipped now s) && MemData.IsExpired now e
     then values s' !! k = None
     else ∃ e', values s' !! k = Some e' ∧
                MemData.lifetime e' = dur ∧
                MemData.value e' = MemData.value e) ∧
  (∀ k, values s !! k = None → values s' !! k = None).
Proof.
  intros s'.
  destruct (SetLifetime_ScopeAll_spec now dur s) as (Hret & Hvals & Hlife & _).
  fold s' in Hvals, Hlife.
  split; [exact Hret|]. split; [exact Hlife|]. split.
  - intros k e Hk. rewrite Hvals, lookup_fmap.
    destruct (skipped now s) eqn:Hskip; simpl.
    + unfold swept. rewrite Hskip, Hk. simpl. eauto.
    + destruct (MemData.IsExpired now e) eqn:He.
      * rewrite (swept_lookup_expired now s k e) by done. done.
      * rewrite (swept_lookup_live now s k e) by done. simpl. eauto.
  - intros k Hk. rewrite Hvals, lookup_fmap.
    rewrite (swept_lookup_None now s k Hk). done.
Qed.

(** C9. For every duration [d], [SetLifetime(d, ScopeNew)] fails with a
    not-supported error and leaves the store as it is, and
    [SetLifetime(d, ScopeNewAndUpdated)] succeeds and changes the default
    lifetime only: the map and its entries, the transient flag and the time
    of the last sweep are unchanged.  The new default is the lifetime of an
    entry added afterwards, and the lifetime given to an entry renewed
    afterwards. *)
Theorem SetLifetime_other_scopes now dur s :
  let s' := (SetLifetime now dur ScopeNewAndUpdated s).2 in
  SetLifetime now dur ScopeNew s = (Some (NotSupportedError "ScopeNew"), s) ∧
  (SetLifetime now dur ScopeNewAndUpdated s).1 = None ∧
  values s' = values s ∧
  lifetime s' = dur ∧
  isTransient s' = isTransient s ∧
  lastgc s' = lastgc s ∧
  (∀ t k v, values s !! k = None →
     values (Add t k v s').2 !! k = Some (MemData.mk (t + dur) dur v)) ∧
  (∀ t k e ref mem, values s !! k = Some e →
     MemData.IsExpired t e = false → isTransient s = false →
     values (Get t k ref mem s').2 !! k =
       Some (MemData.mk (t + dur) dur (MemData.value e))).
Proof.
  intros s'. repeat split.
  - intros t k v Hk.
    destruct (Add_spec t k v s') as (_ & -> & _).
    rewrite (swept_lookup_None t s' k) by done.
    rewrite lookup_insert_eq. done.
  - intros t k e ref mem Hk Hlive Htr.
    pose proof (Get_spec t k ref mem s') as HG.
    rewrite (swept_lookup_live t s' k e) in HG by done.
    destruct HG as [_ ->]. rewrite lookup_insert_eq.
    unfold touch. simpl. rewrite Htr. done.
Qed.

(** * The lock discipline *)

(** Runs the call to [gc] that opens a method, keeping what it did to the
    mutex. *)
Ltac run_gc_locks now s Hm :=
  let st := fresh "st" in
  let s1 := fresh "s1" in
  let evs := fresh "evs" in
  destruct (gc_locks now s Hm) as (evs & Hev & Hd & Hmu);
  unfold bind;
  destruct (gc now s) as [st s1];
  simpl in Hev, Hmu.

(** Closes a goal of [wellLocked] once the method has been run. *)
Ltac close_locks :=
  simpl;
  repeat match goal with
    | H : events _ = _ |- _ => rewrite H
    | H : mutex _ = _ |- _ => rewrite H
    end;
  rewrite <- ?app_assoc;
  eexists; split; [reflexivity|]; split; [|reflexivity];
  unfold disciplined; rewrite ?forallb_app;
  repeat match goal with
    | H : disciplined _ = true |- _ => unfold disciplined in H; rewrite H
    end;
  reflexivity.

Lemma Add_wellLocked now key v : wellLocked (Add now key v).
Proof.
  intros s Hm. unfold Add. run_gc_locks now s Hm.
  destruct st; simpl; destruct (values s1 !! key); close_locks.
Qed.

Lemma Get_wellLocked now key ref mem : wellLocked (Get now key ref mem).
Proof.
  intros s Hm. unfold Get, unsafeGet. run_gc_locks now s Hm.
  destruct st; simpl; destruct (values s1 !! key); close_locks.
Qed.

Lemma Set_wellLocked now key v : wellLocked (Set_ now key v).
Proof.
  intros s Hm. unfold Set_, unsafeGet. run_gc_locks now s Hm.
  destruct st; simpl; destruct (values s1 !! key); close_locks.
Qed.

Lemma GC_wellLocked now : wellLocked (GC now).
Proof.
  intros s Hm. unfold GC. run_gc_locks now s Hm.
  destruct st; close_locks.
Qed.

Lemma Flush_wellLocked : wellLocked Flush.
Proof. intros s Hm. unfold Flush, bind. close_locks. Qed.

Lemma SetTransient_wellLocked b : wellLocked (SetTransient b).
Proof. intros s Hm. unfold SetTransient, bind. close_locks. Qed.

Lemma SetLifetime_wellLocked now d scope : wellLocked (SetLifetime now d scope).
Proof.
  intros s Hm. unfold SetLifetime. repeat case_decide.
  - run_gc_locks now s Hm. destruct st; close_locks.
  - unfold bind. close_locks.
  - exists (@nil Event). rewrite app_nil_r. done.
  - exists (@nil Event). rewrite app_nil_r. done.
Qed.

(** [Delete] respects the discipline when the sweep that opens it runs. *)
Lemma Delete_wellLocked_when_swept now key s :
  mutex s = Unlocked → skipped now s = false →
  ∃ evs, events (Delete now key s).2 = events s ++ evs ∧
         disciplined evs = true ∧
         mutex (Delete now key s).2 = Unlocked.
Proof.
  intros Hm Hrun. unfold Delete, unsafeGet.
  assert (Hst : (gc now s).1 ≠ Unlocked).
  { rewrite gc_Unlocked, Hrun. done. }
  run_gc_locks now s Hm. simpl in Hst.
  destruct st; [done|..]; simpl; destruct (values s1 !! key); close_locks.
Qed.

(** When the sweep is skipped, [Delete] looks the key up with the mutex not
    held. *)
Lemma Delete_reads_without_lock_when_skipped now key s :
  mutex s = Unlocked → skipped now s = true →
  ∃ evs, events (Delete now key s).2 = events s ++ EvRead Unlocked :: evs.
Proof.
  intros Hm Hskip. unfold Delete, unsafeGet, bind.
  rewrite gc_skipped by done. simpl. rewrite Hm.
  destruct (values s !! key); simpl; rewrite <- ?app_assoc; eauto.
Qed.

(** C3: the code breaks the claim. For every store and every result of the
    sweep, [Count] releases the mutex before it reads the number of entries:
    the last thing it does is to read the map with the mutex not held, so
    what it does is not [disciplined]. *)
Theorem Count_reads_without_lock now s :
  mutex s = Unlocked →
  ∃ evs,
    events (Count now s).2 = events s ++ evs ++ [EvRead Unlocked] ∧
    disciplined (evs ++ [EvRead Unlocked]) = false.
Proof.
  intros Hm. unfold Count. run_gc_locks now s Hm.
  assert (Hbad : ∀ l, disciplined (l ++ [EvRead Unlocked]) = false).
  { intros l. unfold disciplined. rewrite forallb_app. apply andb_false_r. }
  destruct st; simpl; rewrite Hev, Hmu, <- ?app_assoc.
  - exists evs. split; [done|apply Hbad].
  - exists (evs ++ [EvRUnlock ReadLocked]).
    split; [rewrite <- !app_assoc; done|apply Hbad].
  - exists (evs ++ [EvUnlock WriteLocked]).
    split; [rewrite <- !app_assoc; done|apply Hbad].
Qed.

Lemma Count_reads_without_lock_witness :
  mutex reached = Unlocked ∧
  (Count 103 reached).1 = (1, None) ∧
  ∃ evs,
    events (Count 103 reached).2 =
      events reached ++ evs ++ [EvRead Unlocked] ∧
    disciplined (evs ++ [EvRead Unlocked]) = false.
Proof.
  assert (Hm : mutex reached = Unlocked) by (vm_compute; reflexivity).
  split; [exact Hm|]. split; [vm_compute; reflexivity|].
  exact (Count_reads_without_lock 103 reached Hm).
Defined.

(** * Further properties of the store *)

(** ** What the methods leave of the configuration and of the map *)

Lemma GC_spec now s :
  values (GC now s).2 = swept now s ∧
  lifetime (GC now s).2 = lifetime s ∧
  isTransient (GC now s).2 = isTransient s.
Proof.
  unfold GC. run_gc now s. destruct st; done.
Qed.

Lemma Count_state now s :
  values (Count now s).2 = swept now s ∧
  lifetime (Count now s).2 = lifetime s ∧
  isTransient (Count now s).2 = isTransient s.
Proof.
  unfold Count. run_gc now s. destruct st; done.
Qed.

Lemma Get_config now key ref mem s :
  lifetime (Get now key ref mem s).2 = lifetime s ∧
  isTransient (Get now key ref mem s).2 = isTransient s.
Proof.
  unfold Get, unsafeGet. run_gc now s.
  destruct st; simpl; destruct (values s1 !! key); done.
Qed.

Lemma Set_config now key v s :
  lifetime (Set_ now key v s).2 = lifetime s ∧
  isTransient (Set_ now key v s).2 = isTransient s.
Proof.
  unfold Set_, unsafeGet. run_gc now s.
  destruct st; simpl; destruct (values s1 !! key); done.
Qed.

Lemma Delete_config now key s :
  lifetime (Delete now key s).2 = lifetime s ∧
  isTransient (Delete now key s).2 = isTransient s.
Proof.
  unfold Delete, unsafeGet. run_gc now s.
  destruct st; simpl; destruct (values s1 !! key); done.
Qed.

Lemma Add_lastgc now key v s :
  lastgc (Add now key v s).2 = (if skipped now s then lastgc s else now).
Proof.
  unfold Add. run_gc now s. rewrite <- Hlastgc.
  destruct st; simpl; destruct (values s1 !! key); done.
Qed.

Lemma Set_lastgc now key v s :
  lastgc (Set_ now key v s).2 = (if skipped now s then lastgc s else now).
Proof.
  unfold Set_, unsafeGet. run_gc now s. rewrite <- Hlastgc.
  destruct st; simpl; destruct (values s1 !! key); done.
Qed.

(** Sweeping a map with no expired entry changes nothing. *)
Lemma live_id now (vs : gmap string MemData.t) :
  (∀ k d, vs !! k = Some d → MemData.IsExpired now d = false) →
  live now vs = vs.
Proof.
  intros Hall. apply map_eq. intros k. rewrite live_lookup.
  destruct (vs !! k) as [d|] eqn:Hk; [|done].
  rewrite (Hall k d Hk). done.
Qed.

Lemma live_unexpired now (vs : gmap string MemData.t) k d :
  live now vs !! k = Some d → MemData.IsExpired now d = false.
Proof.
  rewrite live_lookup. destruct (vs !! k) as [d'|]; [|done].
  destruct (MemData.IsExpired now d') eqn:He; [done|].
  intros [= <-]. done.
Qed.

Lemma live_live now (vs : gmap string MemData.t) :
  live now (live now vs) = live now vs.
Proof. apply live_id. intros k d. apply live_unexpired. Qed.

(** ** Flush, New and missing keys *)

(** X1. [Flush] succeeds whatever the store holds, and leaves a store in
    which [Count] returns 0, [Get], [Set] and [Delete] fail with
    [InvalidKeyError] for every key, and every key can be added again; the
    default lifetime and the transient flag are unchanged. *)
Theorem Flush_empties s now k ref mem v :
  let s' := (Flush s).2 in
  (Flush s).1 = None ∧
  values s' = ∅ ∧
  lifetime s' = lifetime s ∧ isTransient s' = isTransient s ∧
  (Count now s').1 = (0, None) ∧
  (Get now k ref mem s').1 = (Return (Some (InvalidKeyError k)), mem) ∧
  (Set_ now k v s').1 = Some (InvalidKeyError k) ∧
  (Delete now k s').1 = Some (InvalidKeyError k) ∧
  (Add now k v s').1 = None.
Proof.
  intros s'.
  assert (Hempty : values s' = ∅) by done.
  assert (Hk : swept now s' !! k = None).
  { apply swept_lookup_None. rewrite Hempty. apply lookup_empty. }
  assert (Hsw : swept now s' = ∅).
  { apply map_eq. intros i. rewrite lookup_empty.
    apply swept_lookup_None. rewrite Hempty. apply lookup_empty. }
  pose proof (Get_spec now k ref mem s') as HG.
  pose proof (Set_spec now k v s') as HS.
  pose proof (Delete_spec now k s') as HD.
  destruct (Add_spec now k v s') as (HA & _).
  rewrite Hk in HG, HS, HD, HA.
  destruct HG as [-> _], HS as [-> _], HD as [-> _].
  rewrite HA, Count_spec, Hsw. done.
Qed.

(** X2. A store made by [New] is empty whatever its lifetime and its
    transient flag: [Count] returns 0 and [Get], [Set] and [Delete] fail
    with [InvalidKeyError] for every key, at every instant. *)
Theorem New_is_empty zero d transient now k ref mem v :
  let s := New zero d transient in
  (Count now s).1 = (0, None) ∧
  (Get now k ref mem s).1 = (Return (Some (InvalidKeyError k)), mem) ∧
  (Set_ now k v s).1 = Some (InvalidKeyError k) ∧
  (Delete now k s).1 = Some (InvalidKeyError k).
Proof.
  intros s.
  assert (Hsw : swept now s = ∅).
  { apply map_eq. intros i. rewrite lookup_empty.
    apply swept_lookup_None. apply lookup_empty. }
  pose proof (Get_spec now k ref mem s) as HG.
  pose proof (Set_spec now k v s) as HS.
  pose proof (Delete_spec now k s) as HD.
  rewrite Hsw, lookup_empty in HG, HS, HD.
  destruct HG as [-> _], HS as [-> _], HD as [-> _].
  rewrite Count_spec, Hsw. done.
Qed.

(** X3. For every key that is not in the map, [Get], [Set] and [Delete]
    fail with [InvalidKeyError] carrying that key; [Get] leaves the memory
    of the caller as it is, and none of them changes the map beyond what
    the sweep that opens the call did. *)
Theorem missing_key_is_invalid now k ref mem v s :
  values s !! k = None →
  (Get now k ref mem s).1 = (Return (Some (InvalidKeyError k)), mem) ∧
  values (Get now k ref mem s).2 = values (gc now s).2 ∧
  (Set_ now k v s).1 = Some (InvalidKeyError k) ∧
  values (Set_ now k v s).2 = values (gc now s).2 ∧
  (Delete now k s).1 = Some (InvalidKeyError k) ∧
  values (Delete now k s).2 = values (gc now s).2.
Proof.
  intros Hk. apply (swept_lookup_None now) in Hk.
  pose proof (Get_spec now k ref mem s) as HG.
  pose proof (Set_spec now k v s) as HS.
  pose proof (Delete_spec now k s) as HD.
  destruct (gc_spec now s) as (Hgc & _).
  rewrite Hk in HG, HS, HD.
  destruct HG as [-> ->], HS as [-> ->], HD as [-> ->]. rewrite Hgc. done.
Qed.

Lemma missing_key_is_invalid_witness :
  values reached !! "none" = None ∧
  (Get 101 "none" (Some (VPtr TInt (Some 1))) ∅ reached).1 =
    (Return (Some (InvalidKeyError "none")), ∅) ∧
  (Set_ 101 "none" None reached).1 = Some (InvalidKeyError "none") ∧
  (Delete 101 "none" reached).1 = Some (InvalidKeyError "none").
Proof.
  assert (Hk : values reached !! "none" = None) by (vm_compute; reflexivity).
  destruct (missing_key_is_invalid 101 "none"
              (Some (VPtr TInt (Some 1))) ∅ None reached Hk)
    as (HG & _ & HS & _ & HD & _).
  split; [exact Hk|]. split; [exact HG|]. split; [exact HS|exact HD].
Defined.

(** ** Delete, Count and Set *)

(** X4. [Delete] on a key with a live entry succeeds and removes that key
    and no other: every other key is as the sweep that opens the call left
    it.  Afterwards [Get] and a second [Delete] on the key fail with
    [InvalidKeyError], at every instant. *)
Theorem Delete_removes_its_key now k d s :
  values s !! k = Some d →
  MemData.IsExpired now d = false →
  let s' := (Delete now k s).2 in
  (Delete now k s).1 = None ∧
  values s' !! k = None ∧
  (∀ k', k' ≠ k → values s' !! k' = values (gc now s).2 !! k') ∧
  (∀ t ref mem,
     (Get t k ref mem s').1 = (Return (Some (InvalidKeyError k)), mem)) ∧
  (∀ t, (Delete t k s').1 = Some (InvalidKeyError k)).
Proof.
  intros Hk Hlive s'.
  pose proof (Delete_spec now k s) as HD.
  rewrite (swept_lookup_live now s k d Hk Hlive) in HD.
  destruct HD as [Hret Hvals]. fold s' in Hvals.
  destruct (gc_spec now s) as (Hgc & _).
  assert (Hgone : values s' !! k = None).
  { rewrite Hvals. apply lookup_delete_eq. }
  split; [exact Hret|]. split; [exact Hgone|]. split; [|split].
  - intros k' Hne. rewrite Hvals, Hgc. apply lookup_delete_ne. done.
  - intros t ref mem. pose proof (Get_spec t k ref mem s') as HG.
    rewrite (swept_lookup_None t s' k Hgone) in HG. apply HG.
  - intros t. pose proof (Delete_spec t k s') as HD.
    rewrite (swept_lookup_None t s' k Hgone) in HD. apply HD.
Qed.

Lemma Delete_removes_its_key_witness :
  let d := MemData.mk 105 10 (Some (VInt 2)) in
  let s' := (Delete 101 "new" reached).2 in
  values reached !! "new" = Some d ∧ MemData.IsExpired 101 d = false ∧
  (Delete 101 "new" reached).1 = None ∧
  values s' !! "new" = None ∧
  (Delete 102 "new" s').1 = Some (InvalidKeyError "new").
Proof.
  intros d s'.
  assert (Hk : values reached !! "new" = Some d) by (vm_compute; reflexivity).
  assert (Hlive : MemData.IsExpired 101 d = false) by reflexivity.
  destruct (Delete_removes_its_key 101 "new" d reached Hk Hlive)
    as (Hret & Hgone & _ & _ & Hagain).
  split; [exact Hk|]. split; [exact Hlive|]. split; [exact Hret|].
  split; [exact Hgone|exact (Hagain 102)].
Defined.

(** Once a method has swept at [now], a sweep at the same instant finds
    nothing to remove, provided what the method added is not expired. *)
Lemma swept_after_sweep now s s1 :
  lifetime s1 = lifetime s →
  lastgc s1 = (if skipped now s then lastgc s else now) →
  (skipped now s = false →
   ∀ k d, values s1 !! k = Some d → MemData.IsExpired now d = false) →
  swept now s1 = values s1.
Proof.
  intros Hlt Hgc Hall. unfold swept.
  destruct (skipped now s1) eqn:Hskip1; [done|].
  destruct (skipped now s) eqn:Hskip.
  - unfold skipped in Hskip1. rewrite Hlt, Hgc in Hskip1.
    unfold skipped in Hskip. congruence.
  - apply live_id. apply Hall. done.
Qed.

(** X5. With a default lifetime that is not negative, [Add] of a key that
    is not in the map succeeds and [Count], at the same instant, returns
    one more than it returned before the [Add]. *)
Theorem Add_increments_Count now k v s :
  values s !! k = None →
  0 ≤ lifetime s →
  (Add now k v s).1 = None ∧
  (Count now (Add now k v s).2).1 = ((Count now s).1.1 + 1, None).
Proof.
  intros Hk Hpos.
  destruct (Add_spec now k v s) as (Hret & Hvals & Hlt & _).
  pose proof (Add_lastgc now k v s) as Hgc.
  pose proof (swept_lookup_None now s k Hk) as Hfree.
  rewrite Hfree in Hret, Hvals.
  split; [exact Hret|].
  rewrite !Count_spec.
  rewrite (swept_after_sweep now s (Add now k v s).2 Hlt Hgc).
  - rewrite Hvals. simpl. rewrite map_size_insert_None by done. f_equal. lia.
  - intros Hrun i d. rewrite Hvals, lookup_insert.
    case_decide as Hi.
    + intros [= <-]. apply IsExpired_false. simpl. unfold TimeAdd. lia.
    + unfold swept. rewrite Hrun. apply live_unexpired.
Qed.

Lemma Add_increments_Count_witness :
  values reached !! "third" = None ∧ 0 ≤ lifetime reached ∧
  (Count 103 reached).1 = (1, None) ∧
  (Add 103 "third" None reached).1 = None ∧
  (Count 103 (Add 103 "third" None reached).2).1 = (2, None).
Proof.
  assert (Hk : values reached !! "third" = None) by (vm_compute; reflexivity).
  assert (Hpos : 0 ≤ lifetime reached) by (vm_compute; discriminate).
  destruct (Add_increments_Count 103 "third" None reached Hk Hpos)
    as [Hret Hcount].
  split; [exact Hk|]. split; [exact Hpos|].
  split; [vm_compute; reflexivity|]. split; [exact Hret|].
  rewrite Hcount. vm_compute. reflexivity.
Defined.

(** X6. [Set] on a key with a live entry succeeds, and a [Get] that follows
    before the entry expires (before the old [expireAt] on a transient
    store, within the lifetime after the [Set] otherwise), with a
    destination that is a non-nil pointer to a variable of the type of the
    new value, stores the new value in that variable. *)
Theorem Set_then_Get t1 t2 k (v : GoValue) d l mem s :
  values s !! k = Some d →
  MemData.IsExpired t1 d = false →
  t2 ≤ (if isTransient s then MemData.expireAt d else t1 + lifetime s) →
  (Set_ t1 k (Some v) s).1 = None ∧
  (Get t2 k (Some (VPtr (TypeOf v) (Some l))) mem
     (Set_ t1 k (Some v) s).2).1 =
    (Return None, <[l := Some v]> mem).
Proof.
  intros Hk Hlive Hwin.
  pose proof (Set_spec t1 k (Some v) s) as HS.
  rewrite (swept_lookup_live t1 s k d Hk Hlive) in HS.
  destruct HS as [Hret Hvals]. split; [exact Hret|].
  set (s1 := (Set_ t1 k (Some v) s).2) in *.
  set (d1 := touch t1 s (MemData.SetValue (Some v) d)) in *.
  pose proof (Get_spec t2 k (Some (VPtr (TypeOf v) (Some l))) mem s1) as HG.
  rewrite (swept_lookup_live t2 s1 k d1) in HG.
  - destruct HG as [-> _]. unfold d1, touch.
    destruct (negb (isTransient s1)), (negb (isTransient s)); simpl;
      unfold AssignableTo; rewrite bool_decide_true by done; done.
  - rewrite Hvals. apply lookup_insert_eq.
  - apply IsExpired_false. unfold d1, touch.
    destruct (isTransient s); simpl; unfold TimeAdd; simpl; lia.
Qed.

Lemma Set_then_Get_witness :
  let d := MemData.mk 105 10 (Some (VInt 2)) in
  values reached !! "new" = Some d ∧ MemData.IsExpired 101 d = false ∧
  (Set_ 101 "new" (Some (VString "two")) reached).1 = None ∧
  (Get 111 "new" (Some (VPtr TString (Some 4))) ∅
     (Set_ 101 "new" (Some (VString "two")) reached).2).1 =
    (Return None, <[4 := Some (VString "two")]> ∅).
Proof.
  intros d.
  assert (Hk : values reached !! "new" = Some d) by (vm_compute; reflexivity).
  assert (Hlive : MemData.IsExpired 101 d = false) by reflexivity.
  assert (Hwin : 111 ≤ (if isTransient reached then MemData.expireAt d
                        else 101 + lifetime reached))
    by (vm_compute; discriminate).
  split; [exact Hk|]. split; [exact Hlive|].
  exact (Set_then_Get 101 111 "new" (VString "two") d 4 ∅ reached
           Hk Hlive Hwin).
Defined.

(** ** The destination of Get *)

Lemma touch_value now s d :
  MemData.Value (touch now s d) = MemData.value d.
Proof. unfold touch. destruct (negb (isTransient s)); done. Qed.

Lemma setValue_frame src dst mem :
  ((setValue src dst mem).1 ≠ Return None → (setValue src dst mem).2 = mem) ∧
  (∀ l', (∀ elem, dst ≠ Some (VPtr elem (Some l'))) →
     (setValue src dst mem).2 !! l' = mem !! l').
Proof.
  unfold setValue. destruct src as [v|]; [|done].
  destruct dst as [[| | |elem [l|]]|]; try done.
  destruct (AssignableTo (TypeOf v) elem); simpl; [|done].
  split; [done|]. intros l' Hl'. apply lookup_insert_ne.
  intros ->. apply (Hl' elem). done.
Qed.

(** X7. [Get] changes nothing in the memory of the caller unless it returns
    [nil], and whatever it returns it changes at most the variable its
    destination points to. *)
Theorem Get_memory_frame now k ref mem s :
  ((Get now k ref mem s).1.1 ≠ Return None → (Get now k ref mem s).1.2 = mem) ∧
  (∀ l', (∀ elem, ref ≠ Some (VPtr elem (Some l'))) →
     (Get now k ref mem s).1.2 !! l' = mem !! l').
Proof.
  pose proof (Get_spec now k ref mem s) as HG.
  destruct (swept now s !! k) as [d|].
  - destruct HG as [-> _]. apply setValue_frame.
  - destruct HG as [-> _]. done.
Qed.

(** X8. For a live entry holding a non-nil value, [Get] into a pointer to
    an [interface{}] variable succeeds and stores the value there, whatever
    its type; [Get] into a pointer to a variable of another type panics
    (in [reflect.Value.Set]), leaves the memory as it is, and has by then
    renewed the entry as a successful [Get] does. *)
Theorem Get_pointer_destination now k d (v : GoValue) l mem s :
  values s !! k = Some d →
  MemData.IsExpired now d = false →
  MemData.value d = Some v →
  (Get now k (Some (VPtr TEmptyInterface (Some l))) mem s).1 =
    (Return None, <[l := Some v]> mem) ∧
  (∀ elem, elem ≠ TypeOf v → elem ≠ TEmptyInterface →
     (Get now k (Some (VPtr elem (Some l))) mem s).1 = (Panic, mem) ∧
     values (Get now k (Some (VPtr elem (Some l))) mem s).2 !! k =
       Some (touch now s d)).
Proof.
  intros Hk Hlive Hv.
  pose proof (swept_lookup_live now s k d Hk Hlive) as Hfound.
  split.
  - pose proof (Get_spec now k (Some (VPtr TEmptyInterface (Some l))) mem s)
      as HG.
    rewrite Hfound in HG. destruct HG as [-> _].
    rewrite touch_value, Hv. simpl. unfold AssignableTo.
    rewrite (bool_decide_true (TEmptyInterface = TEmptyInterface)) by done.
    rewrite orb_true_r. done.
  - intros elem Hne Hni.
    pose proof (Get_spec now k (Some (VPtr elem (Some l))) mem s) as HG.
    rewrite Hfound in HG. destruct HG as [-> ->].
    rewrite touch_value, Hv, lookup_insert_eq. simpl. unfold AssignableTo.
    rewrite !bool_decide_false by done. done.
Qed.

Lemma Get_pointer_destination_witness :
  let d := MemData.mk 105 10 (Some (VInt 2)) in
  values reached !! "new" = Some d ∧ MemData.IsExpired 101 d = false ∧
  (Get 101 "new" (Some (VPtr TEmptyInterface (Some 1))) ∅ reached).1 =
    (Return None, <[1 := Some (VInt 2)]> ∅) ∧
  (Get 101 "new" (Some (VPtr TString (Some 1))) ∅ reached).1 = (Panic, ∅).
Proof.
  intros d.
  assert (Hk : values reached !! "new" = Some d) by (vm_compute; reflexivity).
  assert (Hlive : MemData.IsExpired 101 d = false) by reflexivity.
  destruct (Get_pointer_destination 101 "new" d (VInt 2) 1 ∅ reached
              Hk Hlive eq_refl) as [Hany Hother].
  split; [exact Hk|]. split; [exact Hlive|]. split; [exact Hany|].
  apply (Hother TString); discriminate.
Defined.

(** X9. For a live entry holding a non-nil value, [Get] with a destination
    that is not a non-nil pointer returns an [IndereferenceError] carrying
    the type of the destination, leaves the memory as it is, and has by
    then renewed the entry as a successful [Get] does.  The message of the
    error tells the three cases apart: a nil destination, a destination
    that is not a pointer, a nil pointer. *)
Theorem Get_bad_destination now k d (v : GoValue) ref mem s :
  values s !! k = Some d →
  MemData.IsExpired now d = false →
  MemData.value d = Some v →
  (∀ elem l, ref ≠ Some (VPtr elem (Some l))) →
  (Get now k ref mem s).1 =
    (Return (Some (IndereferenceError (TypeOf <$> ref))), mem) ∧
  values (Get now k ref mem s).2 !! k = Some (touch now s d) ∧
  IndereferenceError_Error (TypeOf <$> ref) =
    match ref with
    | None => "cannot unwrap to nil"
    | Some (VPtr elem _) => "Invalid type *" +:+ TypeString elem
    | Some w => "The type " +:+ TypeString (TypeOf w) +:+ " is not a pointer"
    end.
Proof.
  intros Hk Hlive Hv Hbad.
  pose proof (swept_lookup_live now s k d Hk Hlive) as Hfound.
  pose proof (Get_spec now k ref mem s) as HG.
  rewrite Hfound in HG. destruct HG as [-> ->].
  rewrite touch_value, Hv, lookup_insert_eq.
  split; [|split; [done|]].
  - destruct ref as [[| | |elem [l|]]|]; try done.
    destruct (Hbad elem l). done.
  - destruct ref as [[]|]; done.
Qed.

Lemma Get_bad_destination_witness :
  let d := MemData.mk 105 10 (Some (VInt 2)) in
  values reached !! "new" = Some d ∧ MemData.IsExpired 101 d = false ∧
  (Get 101 "new" (Some (VInt 0)) ∅ reached).1 =
    (Return (Some (IndereferenceError (Some TInt))), ∅) ∧
  IndereferenceError_Error (Some TInt) = "The type int is not a pointer" ∧
  (Get 101 "new" (Some (VPtr TInt None)) ∅ reached).1 =
    (Return (Some (IndereferenceError (Some (TPtr TInt)))), ∅) ∧
  IndereferenceError_Error (Some (TPtr TInt)) = "Invalid type *int".
Proof.
  intros d.
  assert (Hk : values reached !! "new" = Some d) by (vm_compute; reflexivity).
  assert (Hlive : MemData.IsExpired 101 d = false) by reflexivity.
  destruct (Get_bad_destination 101 "new" d (VInt 2) (Some (VInt 0)) ∅
              reached Hk Hlive eq_refl) as (H1 & _ & M1); [discriminate|].
  destruct (Get_bad_destination 101 "new" d (VInt 2) (Some (VPtr TInt None))
              ∅ reached Hk Hlive eq_refl) as (H2 & _ & M2); [discriminate|].
  split; [exact Hk|]. split; [exact Hlive|]. split; [exact H1|].
  split; [exact M1|]. split; [exact H2|exact M2].
Defined.

(** ** SetLifetime and SetTransient *)

(** X10. [SetLifetime] succeeds exactly for the scopes [ScopeAll] and
    [ScopeNewAndUpdated]; when it succeeds the default lifetime of the
    store is the given duration, and when it fails (with a
    [NotSupportedError] naming the scope) the store is left as it is. *)
Theorem SetLifetime_scopes now dur scope s :
  ((SetLifetime now dur scope s).1 = None ↔
   scope = ScopeAll ∨ scope = ScopeNewAndUpdated) ∧
  ((SetLifetime now dur scope s).1 = None →
   lifetime (SetLifetime now dur scope s).2 = dur) ∧
  ((SetLifetime now dur scope s).1 ≠ None →
   (SetLifetime now dur scope s).2 = s ∧
   (SetLifetime now dur scope s).1 =
     Some (NotSupportedError
             (if decide (scope = ScopeNew) then "ScopeNew" else Itoa scope))).
Proof.
  destruct (decide (scope = ScopeAll)) as [->|HnA].
  { destruct (SetLifetime_ScopeAll_spec now dur s) as (Hret & _ & Hlt & _).
    rewrite Hret, Hlt. split; [|done]. split; [auto|done]. }
  destruct (decide (scope = ScopeNewAndUpdated)) as [->|HnU].
  { split; [|done]. split; [auto|done]. }
  unfold SetLifetime. rewrite !decide_False by done.
  destruct (decide (scope = ScopeNew)); simpl.
  - split; [|done]. split; [done|]. intros [?|?]; done.
  - split; [|done]. split; [done|]. intros [?|?]; done.
Qed.

(** X11. [SetTransient] changes the flag and nothing else of the store, and
    takes effect on the accesses that follow: after [SetTransient(true)] a
    [Get] leaves the entry it finds as it is, after [SetTransient(false)] it
    renews it with the default lifetime. *)
Theorem SetTransient_effect b now k d ref mem s :
  values s !! k = Some d →
  MemData.IsExpired now d = false →
  let s' := (SetTransient b s).2 in
  values s' = values s ∧ lifetime s' = lifetime s ∧ lastgc s' = lastgc s ∧
  isTransient s' = b ∧
  values (Get now k ref mem s').2 !! k =
    Some (if b then d else renewed now (lifetime s) d).
Proof.
  intros Hk Hlive s'.
  repeat (split; [done|]).
  pose proof (Get_spec now k ref mem s') as HG.
  rewrite (swept_lookup_live now s' k d Hk Hlive) in HG.
  destruct HG as [_ ->]. rewrite lookup_insert_eq.
  unfold touch, renewed. destruct b; done.
Qed.

Lemma SetTransient_effect_witness :
  let d := MemData.mk 105 10 (Some (VInt 2)) in
  values reached !! "new" = Some d ∧ MemData.IsExpired 101 d = false ∧
  values (Get 101 "new" None ∅ (SetTransient true reached).2).2 !! "new" =
    Some d ∧
  values (Get 101 "new" None ∅ (SetTransient false reached).2).2 !! "new" =
    Some (MemData.mk 111 10 (Some (VInt 2))).
Proof.
  intros d.
  assert (Hk : values reached !! "new" = Some d) by (vm_compute; reflexivity).
  assert (Hlive : MemData.IsExpired 101 d = false) by reflexivity.
  destruct (SetTransient_effect true 101 "new" d None ∅ reached Hk Hlive)
    as (_ & _ & _ & _ & Ht).
  destruct (SetTransient_effect false 101 "new" d None ∅ reached Hk Hlive)
    as (_ & _ & _ & _ & Hf).
  split; [exact Hk|]. split; [exact Hlive|]. split; [exact Ht|exact Hf].
Defined.

(** ** What a sweep leaves *)

(** X12. When the sweep that opens them runs, [GC], [Count] and [Delete]
    leave no entry in the map whose [expireAt] is before the instant of the
    call, and [Get] and [Set] leave none under the keys other than the one
    they are called on (the entry they find is left as their renewal makes
    it). *)
Theorem no_expired_entry_after_sweep now k ref mem v s :
  skipped now s = false →
  (∀ i d, values (GC now s).2 !! i = Some d → now ≤ MemData.expireAt d) ∧
  (∀ i d, values (Count now s).2 !! i = Some d → now ≤ MemData.expireAt d) ∧
  (∀ i d, values (Delete now k s).2 !! i = Some d →
     now ≤ MemData.expireAt d) ∧
  (∀ i d, i ≠ k → values (Get now k ref mem s).2 !! i = Some d →
     now ≤ MemData.expireAt d) ∧
  (∀ i d, i ≠ k → values (Set_ now k v s).2 !! i = Some d →
     now ≤ MemData.expireAt d).
Proof.
  intros Hrun.
  assert (Hsw : ∀ i d, swept now s !! i = Some d → now ≤ MemData.expireAt d).
  { intros i d. unfold swept. rewrite Hrun. intros Hi.
    apply IsExpired_false. apply (live_unexpired now (values s) i). done. }
  destruct (GC_spec now s) as (HGC & _).
  destruct (Count_state now s) as (HC & _).
  pose proof (Delete_spec now k s) as HD.
  pose proof (Get_spec now k ref mem s) as HG.
  pose proof (Set_spec now k v s) as HS.
  rewrite HGC, HC.
  split; [exact Hsw|]. split; [exact Hsw|].
  destruct (swept now s !! k) as [e|].
  - destruct HD as [_ ->], HG as [_ ->], HS as [_ ->].
    split; [|split]; intros i d.
    + rewrite lookup_delete. case_decide; [done|]. apply Hsw.
    + intros Hne. rewrite lookup_insert_ne by done. apply Hsw.
    + intros Hne. rewrite lookup_insert_ne by done. apply Hsw.
  - destruct HD as [_ ->], HG as [_ ->], HS as [_ ->].
    split; [exact Hsw|]. split; intros i d _; apply Hsw.
Qed.

Lemma no_expired_entry_after_sweep_witness :
  skipped 103 reached = false ∧
  ∀ i d, values (GC 103 reached).2 !! i = Some d → 103 ≤ MemData.expireAt d.
Proof.
  assert (Hrun : skipped 103 reached = false) by (vm_compute; reflexivity).
  split; [exact Hrun|].
  exact (proj1 (no_expired_entry_after_sweep 103 "new" None ∅ None
                  reached Hrun)).
Defined.

(** X13. [GC] called twice at the same instant leaves the map the first
    call left: the second call finds nothing to remove. *)
Theorem GC_idempotent now s :
  values (GC now (GC now s).2).2 = values (GC now s).2.
Proof.
  destruct (GC_spec now s) as (Hv & Hlt & _).
  destruct (GC_spec now (GC now s).2) as (Hv2 & _).
  rewrite Hv2. apply (swept_after_sweep now s); [done| |].
  - unfold GC. run_gc now s. rewrite <- Hlastgc. destruct st; done.
  - intros Hrun i d. rewrite Hv. unfold swept. rewrite Hrun.
    apply live_unexpired.
Qed.

(** ** The lock discipline of the other methods *)

(** X14. [Add], [Get], [Set], [GC], [Flush], [SetLifetime] and
    [SetTransient], called with the mutex not held, read the map with the
    mutex held, write it with the mutex held in write mode, never take the
    mutex while they hold it nor release it in a mode in which they do not
    hold it, and return with the mutex released, whatever the sweep
    returned. *)
Theorem methods_respect_lock_discipline now key v ref mem d scope b :
  wellLocked (Add now key v) ∧
  wellLocked (Get now key ref mem) ∧
  wellLocked (Set_ now key v) ∧
  wellLocked (GC now) ∧
  wellLocked Flush ∧
  wellLocked (SetLifetime now d scope) ∧
  wellLocked (SetTransient b).
Proof.
  split; [apply Add_wellLocked|]. split; [apply Get_wellLocked|].
  split; [apply Set_wellLocked|]. split; [apply GC_wellLocked|].
  split; [apply Flush_wellLocked|]. split; [apply SetLifetime_wellLocked|].
  apply SetTransient_wellLocked.
Qed.

(** X15. [Delete], called with the mutex not held, respects the lock
    discipline when the sweep that opens it runs; when the sweep is skipped,
    the first thing it does is to look the key up in the map with the mutex
    not held. *)
Theorem Delete_lock_discipline now key s :
  mutex s = Unlocked →
  (skipped now s = false →
   ∃ evs, events (Delete now key s).2 = events s ++ evs ∧
          disciplined evs = true ∧
          mutex (Delete now key s).2 = Unlocked) ∧
  (skipped now s = true →
   ∃ evs, events (Delete now key s).2 = events s ++ EvRead Unlocked :: evs).
Proof.
  intros Hm. split.
  - apply Delete_wellLocked_when_swept. done.
  - apply Delete_reads_without_lock_when_skipped. done.
Qed.

Lemma Delete_lock_discipline_witness :
  mutex reached = Unlocked ∧
  skipped 103 reached = false ∧ skipped 101 reached = true ∧
  (∃ evs, events (Delete 103 "new" reached).2 = events reached ++ evs ∧
          disciplined evs = true ∧
          mutex (Delete 103 "new" reached).2 = Unlocked) ∧
  (∃ evs, events (Delete 101 "new" reached).2 =
            events reached ++ EvRead Unlocked :: evs).
Proof.
  assert (Hm : mutex reached = Unlocked) by (vm_compute; reflexivity).
  assert (Hrun : skipped 103 reached = false) by (vm_compute; reflexivity).
  assert (Hskip : skipped 101 reached = true) by (vm_compute; reflexivity).
  split; [exact Hm|]. split; [exact Hrun|]. split; [exact Hskip|]. split.
  - exact (proj1 (Delete_lock_discipline 103 "new" reached Hm) Hrun).
  - exact (proj2 (Delete_lock_discipline 101 "new" reached Hm) Hskip).
Defined.

(** ** What the methods never touch *)

(** X16. No method but [Add] puts a key in the map: a key that is not in
    the map before [Get], [Set], [Delete], [Count], [GC], [Flush],
    [SetLifetime] or [SetTransient] is not in it afterwards. *)
Theorem only_Add_introduces_keys now k k' ref mem v d scope b s :
  values s !! k' = None →
  values (Get now k ref mem s).2 !! k' = None ∧
  values (Set_ now k v s).2 !! k' = None ∧
  values (Delete now k s).2 !! k' = None ∧
  values (Count now s).2 !! k' = None ∧
  values (GC now s).2 !! k' = None ∧
  values (Flush s).2 !! k' = None ∧
  values (SetLifetime now d scope s).2 !! k' = None ∧
  values (SetTransient b s).2 !! k' = None.
Proof.
  intros Hk'. pose proof (swept_lookup_None now s k' Hk') as Hsw.
  pose proof (Get_spec now k ref mem s) as HG.
  pose proof (Set_spec now k v s) as HS.
  pose proof (Delete_spec now k s) as HD.
  destruct (Count_state now s) as (-> & _).
  destruct (GC_spec now s) as (-> & _).
  assert (Hne : ∀ e, swept now s !! k = Some e → k ≠ k') by congruence.
  assert (HL : values (SetLifetime now d scope s).2 !! k' = None).
  { destruct (decide (scope = ScopeAll)) as [->|HnA].
    - destruct (SetLifetime_ScopeAll_spec now d s) as (_ & -> & _).
      rewrite lookup_fmap, Hsw. done.
    - unfold SetLifetime. rewrite decide_False by done.
      repeat case_decide; done. }
  destruct (swept now s !! k) as [e|] eqn:Hk.
  - destruct HG as [_ ->], HS as [_ ->], HD as [_ ->].
    rewrite !lookup_insert_ne by eauto. rewrite lookup_delete_ne by eauto.
    done.
  - destruct HG as [_ ->], HS as [_ ->], HD as [_ ->]. done.
Qed.

Lemma only_Add_introduces_keys_witness :
  values reached !! "none" = None ∧
  values (Set_ 101 "new" None reached).2 !! "none" = None ∧
  values (Set_ 101 "none" None reached).2 !! "none" = None.
Proof.
  assert (Hk : values reached !! "none" = None) by (vm_compute; reflexivity).
  split; [exact Hk|]. split.
  - exact (proj1 (proj2 (only_Add_introduces_keys 101 "new" "none" None ∅
                           None 0 0 true reached Hk))).
  - exact (proj1 (proj2 (only_Add_introduces_keys 101 "none" "none" None ∅
                           None 0 0 true reached Hk))).
Defined.

(** X17. [Add], [Get], [Set] and [Delete] change nothing under the keys
    they are not called on: every other key is as the sweep that opens the
    call left it. *)
Theorem other_keys_untouched now k k' ref mem v s :
  k' ≠ k →
  values (Add now k v s).2 !! k' = values (gc now s).2 !! k' ∧
  values (Get now k ref mem s).2 !! k' = values (gc now s).2 !! k' ∧
  values (Set_ now k v s).2 !! k' = values (gc now s).2 !! k' ∧
  values (Delete now k s).2 !! k' = values (gc now s).2 !! k'.
Proof.
  intros Hne.
  destruct (Add_spec now k v s) as (_ & HA & _).
  pose proof (Get_spec now k ref mem s) as HG.
  pose proof (Set_spec now k v s) as HS.
  pose proof (Delete_spec now k s) as HD.
  destruct (gc_spec now s) as (-> & _).
  destruct (swept now s !! k) as [e|].
  - destruct HG as [_ ->], HS as [_ ->], HD as [_ ->]. rewrite HA.
    rewrite !lookup_insert_ne, lookup_delete_ne by done. done.
  - destruct HG as [_ ->], HS as [_ ->], HD as [_ ->]. rewrite HA.
    rewrite lookup_insert_ne by done. done.
Qed.

Lemma other_keys_untouched_witness :
  "new" ≠ "old" ∧
  values (Delete 101 "old" reached).2 !! "new" =
    Some (MemData.mk 105 10 (Some (VInt 2))) ∧
  values (Set_ 101 "old" None reached).2 !! "new" =
    Some (MemData.mk 105 10 (Some (VInt 2))).
Proof.
  assert (Hne : "new" ≠ "old") by discriminate.
  destruct (other_keys_untouched 101 "old" "new" None ∅ None reached Hne)
    as (_ & _ & HS & HD).
  split; [exact Hne|]. split.
  - rewrite HD. vm_compute. reflexivity.
  - rewrite HS. vm_compute. reflexivity.
Defined.

(** X18. The default lifetime and the transient flag of the store are
    changed by [SetLifetime] and [SetTransient] only: [Add], [Get], [Set],
    [Delete], [Count], [GC] and [Flush] leave both as they are. *)
Theorem configuration_preserved now k ref mem v s :
  let same (s' : Store) :=
    lifetime s' = lifetime s ∧ isTransient s' = isTransient s in
  same (Add now k v s).2 ∧
  same (Get now k ref mem s).2 ∧
  same (Set_ now k v s).2 ∧
  same (Delete now k s).2 ∧
  same (Count now s).2 ∧
  same (GC now s).2 ∧
  same (Flush s).2.
Proof.
  intros same. unfold same.
  destruct (Add_spec now k v s) as (_ & _ & HA).
  destruct (Count_state now s) as (_ & HC).
  destruct (GC_spec now s) as (_ & HGC).
  split; [exact HA|]. split; [apply Get_config|]. split; [apply Set_config|].
  split; [apply Delete_config|]. split; [exact HC|]. split; [exact HGC|].
  done.
Qed.

(** * The earlier store, MemStore *)

(** ** Its sweep *)

Lemma MemStore_gc_spec now s :
  values (MemStore.gc now s).2 = live now (values s) ∧
  lifetime (MemStore.gc now s).2 = lifetime s ∧
  isTransient (MemStore.gc now s).2 = isTransient s ∧
  lastgc (MemStore.gc now s).2 = lastgc s ∧
  (MemStore.gc now s).1 =
    (if existsb (expiredAt now (values s)) (map_to_list (values s)).*1
     then WriteLocked else ReadLocked).
Proof.
  unfold MemStore.gc, bind, get. simpl.
  match goal with
  | |- context [gc_range now ?ks false ?s0] =>
      pose proof (gc_range_lookup now ks false s0) as Hl;
      pose proof (gc_range_fields now ks false s0) as Hf;
      pose proof (gc_range_result now ks false s0) as Hr;
      destruct (gc_range now ks false s0) as [wl s']
  end.
  simpl in Hl, Hf, Hr. destruct Hf as (Hlt & Htr & Hgc).
  assert (Hv : values s' = live now (values s)).
  { apply map_eq. intros k. rewrite Hl, live_lookup. unfold expiredAt.
    destruct (values s !! k) as [d|] eqn:Hk.
    - rewrite bool_decide_true by (apply elem_of_keys; eauto). done.
    - rewrite andb_false_r. done. }
  rewrite <- Hr. destruct wl; done.
Qed.

Lemma MemStore_gc_locks now s :
  mutex s = Unlocked →
  ∃ evs,
    events (MemStore.gc now s).2 = events s ++ evs ∧
    disciplined evs = true ∧
    mutex (MemStore.gc now s).2 = (MemStore.gc now s).1 ∧
    (MemStore.gc now s).1 ≠ Unlocked.
Proof.
  intros Hm. unfold MemStore.gc, bind, get. simpl.
  match goal with
  | |- context [gc_range now ?ks false ?s0] =>
      destruct (gc_range_locks now ks false s0) as (evs & Hev & Hd & Hmu);
        [done|];
      destruct (gc_range now ks false s0) as [wl s']
  end.
  simpl in Hev, Hmu.
  exists (EvRLock Unlocked :: EvRead ReadLocked :: evs).
  rewrite Hm, <- !app_assoc in Hev. destruct wl; simpl; rewrite Hev, Hd; done.
Qed.

(** Runs the sweep that opens a method of [MemStore]. *)
Ltac run_old_gc now s :=
  let st := fresh "st" in
  let s1 := fresh "s1" in
  destruct (MemStore_gc_spec now s) as (Hvalues & Hlifetime & Htransient & _);
  unfold bind;
  destruct (MemStore.gc now s) as [st s1];
  simpl in Hvalues, Hlifetime, Htransient.

Ltac run_old_gc_locks now s Hm :=
  let st := fresh "st" in
  let s1 := fresh "s1" in
  let evs := fresh "evs" in
  destruct (MemStore_gc_locks now s Hm) as (evs & Hev & Hd & Hmu & Hst);
  unfold bind;
  destruct (MemStore.gc now s) as [st s1];
  simpl in Hev, Hmu, Hst.

(** ** What its methods return and leave in the map *)

Lemma MemStore_Add_spec now key v s :
  (MemStore.Add now key v s).1 =
    (if live now (values s) !! key is Some _
     then Some (DuplicatedKeyError key) else None) ∧
  values (MemStore.Add now key v s).2 =
    (if live now (values s) !! key is Some _ then live now (values s)
     else <[key := MemData.NewMemData now (lifetime s) v]>
            (live now (values s))) ∧
  lifetime (MemStore.Add now key v s).2 = lifetime s ∧
  isTransient (MemStore.Add now key v s).2 = isTransient s.
Proof.
  unfold MemStore.Add. run_old_gc now s.
  destruct st; simpl; rewrite Hvalues, ?Hlifetime;
    destruct (live now (values s) !! key); done.
Qed.

Lemma MemStore_Get_spec now key ref mem s :
  match live now (values s) !! key with
  | Some d =>
      (MemStore.Get now key ref mem s).1 =
        setValue (MemData.Value (touch now s d)) ref mem ∧
      values (MemStore.Get now key ref mem s).2 =
        <[key := touch now s d]> (live now (values s))
  | None =>
      (MemStore.Get now key ref mem s).1 =
        (Return (Some (InvalidKeyError key)), mem) ∧
      values (MemStore.Get now key ref mem s).2 = live now (values s)
  end.
Proof.
  unfold MemStore.Get, MemStore.unsafeGet, touch. run_old_gc now s.
  destruct st; simpl; rewrite Hvalues, ?Hlifetime, ?Htransient;
    destruct (live now (values s) !! key); simpl;
    rewrite ?Hvalues, ?Hlifetime, ?Htransient; done.
Qed.

Lemma MemStore_Set_spec now key v s :
  match live now (values s) !! key with
  | Some d =>
      (MemStore.Set_ now key v s).1 = None ∧
      values (MemStore.Set_ now key v s).2 =
        <[key := touch now s (MemData.SetValue v d)]> (live now (values s))
  | None =>
      (MemStore.Set_ now key v s).1 = Some (InvalidKeyError key) ∧
      values (MemStore.Set_ now key v s).2 = live now (values s)
  end.
Proof.
  unfold MemStore.Set_, MemStore.unsafeGet, touch. run_old_gc now s.
  destruct st; simpl; rewrite Hvalues, ?Hlifetime, ?Htransient;
    destruct (live now (values s) !! key); simpl;
    rewrite ?Hvalues, ?Hlifetime, ?Htransient; done.
Qed.

Lemma MemStore_Delete_spec now key s :
  match live now (values s) !! key with
  | Some d =>
      (MemStore.Delete now key s).1 = None ∧
      values (MemStore.Delete now key s).2 = delete key (live now (values s))
  | None =>
      (MemStore.Delete now key s).1 = Some (InvalidKeyError key) ∧
      values (MemStore.Delete now key s).2 = live now (values s)
  end.
Proof.
  unfold MemStore.Delete, MemStore.unsafeGet. run_old_gc now s.
  destruct st; simpl; rewrite Hvalues;
    destruct (live now (values s) !! key); simpl; rewrite ?Hvalues; done.
Qed.

Lemma MemStore_Count_spec now s :
  (MemStore.Count now s).1 = (Z.of_nat (size (live now (values s))), None) ∧
  values (MemStore.Count now s).2 = live now (values s).
Proof.
  unfold MemStore.Count. run_old_gc now s.
  destruct st; simpl; rewrite Hvalues; done.
Qed.

(** ** Its properties *)

(** X19. The sweep of [MemStore] runs at every call: it removes exactly the
    entries whose [expireAt] has passed, adds no key, returns [WriteLocked]
    if some entry was expired and [ReadLocked] otherwise, never [Unlocked],
    and leaves the mutex held in the mode it returns. *)
Theorem MemStore_gc_sweeps now s :
  mutex s = Unlocked →
  let expired :=
    ∃ k d, values s !! k = Some d ∧ MemData.expireAt d < now in
  (∀ k d, values s !! k = Some d →
     values (MemStore.gc now s).2 !! k =
       if MemData.IsExpired now d then None else Some d) ∧
  (∀ k, values s !! k = None → values (MemStore.gc now s).2 !! k = None) ∧
  (expired → (MemStore.gc now s).1 = WriteLocked) ∧
  (¬ expired → (MemStore.gc now s).1 = ReadLocked) ∧
  mutex (MemStore.gc now s).2 = (MemStore.gc now s).1.
Proof.
  intros Hm expired.
  destruct (MemStore_gc_spec now s) as (Hv & _ & _ & _ & Hst).
  destruct (MemStore_gc_locks now s Hm) as (evs & _ & _ & Hmu & _).
  assert (Hex : expired ↔
    existsb (expiredAt now (values s)) (map_to_list (values s)).*1 = true).
  { rewrite existsb_expiredAt. unfold expired. split.
    - intros (k & d & Hk & He). exists k, d. rewrite IsExpired_true. done.
    - intros (k & d & Hk & He). exists k, d. rewrite <- IsExpired_true. done. }
  split; [|split; [|split; [|split; [|exact Hmu]]]].
  - intros k d Hk. rewrite Hv, live_lookup, Hk. done.
  - intros k Hk. rewrite Hv, live_lookup, Hk. done.
  - intros He. apply Hex in He. rewrite Hst, He. done.
  - intros Hne. rewrite Hst. destruct (existsb _ _) eqn:Hb; [|done].
    destruct Hne. apply Hex. done.
Qed.

Lemma MemStore_gc_sweeps_witness :
  mutex reached = Unlocked ∧
  values (MemStore.gc 101 reached).2 !! "old" = None ∧
  (MemStore.gc 101 reached).1 = WriteLocked.
Proof.
  assert (Hm : mutex reached = Unlocked) by (vm_compute; reflexivity).
  destruct (MemStore_gc_sweeps 101 reached Hm) as (Hexp & _ & Hw & _).
  split; [exact Hm|]. split.
  - apply (Hexp "old" (MemData.mk 100 10 (Some (VInt 1)))).
    vm_compute. reflexivity.
  - apply Hw. exists "old", (MemData.mk 100 10 (Some (VInt 1))).
    split; [vm_compute; reflexivity|simpl; lia].
Defined.

(** X20. In [MemStore] an expired entry is never served: for every key
    whose entry is expired, [Get], [Set] and [Delete] fail with
    [InvalidKeyError], nothing is copied into the destination, and the
    entry is gone from the map. *)
Theorem MemStore_expired_entry_invalid now k d ref mem v s :
  values s !! k = Some d →
  MemData.expireAt d < now →
  (MemStore.Get now k ref mem s).1 =
    (Return (Some (InvalidKeyError k)), mem) ∧
  values (MemStore.Get now k ref mem s).2 !! k = None ∧
  (MemStore.Set_ now k v s).1 = Some (InvalidKeyError k) ∧
  values (MemStore.Set_ now k v s).2 !! k = None ∧
  (MemStore.Delete now k s).1 = Some (InvalidKeyError k) ∧
  values (MemStore.Delete now k s).2 !! k = None.
Proof.
  intros Hk He. apply IsExpired_true in He.
  assert (Hgone : live now (values s) !! k = None).
  { rewrite live_lookup, Hk, He. done. }
  pose proof (MemStore_Get_spec now k ref mem s) as HG.
  pose proof (MemStore_Set_spec now k v s) as HS.
  pose proof (MemStore_Delete_spec now k s) as HD.
  rewrite Hgone in HG, HS, HD.
  destruct HG as [-> ->], HS as [-> ->], HD as [-> ->]. done.
Qed.

Lemma MemStore_expired_entry_invalid_witness :
  values reached !! "old" = Some (MemData.mk 100 10 (Some (VInt 1))) ∧
  (MemStore.Get 101 "old" (Some (VPtr TInt (Some 1))) ∅ reached).1 =
    (Return (Some (InvalidKeyError "old")), ∅) ∧
  (Get 101 "old" (Some (VPtr TInt (Some 1))) ∅ reached).1 =
    (Return None, {[ 1 := Some (VInt 1) ]}).
Proof.
  assert (Hk : values reached !! "old" =
                 Some (MemData.mk 100 10 (Some (VInt 1))))
    by (vm_compute; reflexivity).
  destruct (MemStore_expired_entry_invalid 101 "old" _
              (Some (VPtr TInt (Some 1))) ∅ None reached Hk)
    as (HG & _); [simpl; lia|].
  split; [exact Hk|]. split; [exact HG|]. vm_compute. reflexivity.
Defined.

Lemma MemStore_Count_wellLocked now : wellLocked (MemStore.Count now).
Proof.
  intros s Hm. unfold MemStore.Count. run_old_gc_locks now s Hm.
  destruct st; [done|..]; close_locks.
Qed.

Lemma MemStore_Delete_wellLocked now key : wellLocked (MemStore.Delete now key).
Proof.
  intros s Hm. unfold MemStore.Delete, MemStore.unsafeGet.
  run_old_gc_locks now s Hm.
  destruct st; [done|..]; simpl; destruct (values s1 !! key); close_locks.
Qed.

(** X21. Every method of [MemStore], called with the mutex not held,
    respects the lock discipline and returns with the mutex released;
    [Count] reads the number of entries, and [Delete] looks its key up, with
    the mutex held. *)
Theorem MemStore_methods_respect_lock_discipline now key v ref mem d b :
  wellLocked (MemStore.Add now key v) ∧
  wellLocked (MemStore.Count now) ∧
  wellLocked (MemStore.Delete now key) ∧
  wellLocked MemStore.Flush ∧
  wellLocked (MemStore.Get now key ref mem) ∧
  wellLocked (MemStore.GC now) ∧
  wellLocked (MemStore.Set_ now key v) ∧
  wellLocked (MemStore.SetLifetime d) ∧
  wellLocked (MemStore.SetTransient b).
Proof.
  split; [|split; [apply MemStore_Count_wellLocked|
           split; [apply MemStore_Delete_wellLocked|]]].
  { intros s Hm. unfold MemStore.Add. run_old_gc_locks now s Hm.
    destruct st; [done|..]; simpl; destruct (values s1 !! key); close_locks. }
  split. { intros s Hm. unfold MemStore.Flush, bind. close_locks. }
  split.
  { intros s Hm. unfold MemStore.Get, MemStore.unsafeGet.
    run_old_gc_locks now s Hm.
    destruct st; [done|..]; simpl; destruct (values s1 !! key); close_locks. }
  split.
  { intros s Hm. unfold MemStore.GC. run_old_gc_locks now s Hm.
    destruct st; [done|..]; close_locks. }
  split.
  { intros s Hm. unfold MemStore.Set_, MemStore.unsafeGet.
    run_old_gc_locks now s Hm.
    destruct st; [done|..]; simpl; destruct (values s1 !! key); close_locks. }
  split.
  { intros s Hm. unfold MemStore.SetLifetime, bind. close_locks. }
  intros s Hm. unfold MemStore.SetTransient, bind. close_locks.
Qed.

(** X22. [Count] of [MemStore] returns the number of entries of the map
    that are not expired, and leaves exactly those in the map. *)
Theorem MemStore_Count_counts_unexpired now s :
  (MemStore.Count now s).1 =
    (Z.of_nat (size (filter (λ kd, now ≤ MemData.expireAt kd.2) (values s))),
     None) ∧
  values (MemStore.Count now s).2 =
    filter (λ kd, now ≤ MemData.expireAt kd.2) (values s).
Proof.
  assert (Hlive : live now (values s) =
    filter (λ kd, now ≤ MemData.expireAt kd.2) (values s)).
  { unfold live. apply map_filter_ext. intros k d _. simpl.
    apply IsExpired_false. }
  destruct (MemStore_Count_spec now s) as [-> ->]. rewrite Hlive. done.
Qed.



(** X24. In [MemStore], [Add] of a key that is not in the map succeeds; a
    [Get] that follows within the lifetime, with a destination that is a
    non-nil pointer to a variable of the type of the value, stores the value
    in that variable, and a second [Add] of the key within the lifetime
    fails with [DuplicatedKeyError]. *)
Theorem MemStore_Add_then_Get t1 t2 k (v : GoValue) w l mem s :
  values s !! k = None →
  t2 ≤ t1 + lifetime s →
  let s1 := (MemStore.Add t1 k (Some v) s).2 in
  (MemStore.Add t1 k (Some v) s).1 = None ∧
  (MemStore.Get t2 k (Some (VPtr (TypeOf v) (Some l))) mem s1).1 =
    (Return None, <[l := Some v]> mem) ∧
  (MemStore.Add t2 k w s1).1 = Some (DuplicatedKeyError k).
Proof.
  intros Hk Hwin s1.
  destruct (MemStore_Add_spec t1 k (Some v) s) as (Hret & Hvals & Hlt & _).
  assert (Hfree : live t1 (values s) !! k = None).
  { rewrite live_lookup, Hk. done. }
  rewrite Hfree in Hret, Hvals. split; [exact Hret|].
  assert (Hfound : live t2 (values s1) !! k =
                     Some (MemData.NewMemData t1 (lifetime s) (Some v))).
  { rewrite live_lookup. unfold s1. rewrite Hvals, lookup_insert_eq.
    replace (MemData.IsExpired t2 _) with false; [done|].
    symmetry. apply IsExpired_false. simpl. unfold TimeAdd. lia. }
  split.
  - pose proof (MemStore_Get_spec t2 k (Some (VPtr (TypeOf v) (Some l)))
                  mem s1) as HG.
    rewrite Hfound in HG. destruct HG as [-> _].
    rewrite touch_value. simpl. unfold AssignableTo.
    rewrite bool_decide_true by done. done.
  - destruct (MemStore_Add_spec t2 k w s1) as (-> & _).
    rewrite Hfound. done.
Qed.

Lemma MemStore_Add_then_Get_witness :
  let s := MemStore.NewCacheStore 10 in
  values s !! "k" = None ∧ 105 ≤ 100 + lifetime s ∧
  (MemStore.Add 100 "k" (Some (VInt 7)) s).1 = None ∧
  (MemStore.Get 105 "k" (Some (VPtr TInt (Some 1))) ∅
     (MemStore.Add 100 "k" (Some (VInt 7)) s).2).1 =
    (Return None, <[1 := Some (VInt 7)]> ∅).
Proof.
  intros s.
  assert (Hk : values s !! "k" = None) by (vm_compute; reflexivity).
  assert (Hwin : 105 ≤ 100 + lifetime s) by (simpl; lia).
  destruct (MemStore_Add_then_Get 100 105 "k" (VInt 7) None 1 ∅ s Hk Hwin)
    as (HA & HG & _).
  split; [exact Hk|]. split; [exact Hwin|]. split; [exact HA|exact HG].
Defined.

(** X25. The two constructors of [MemStore] differ by renewal only: after
    an [Add] at [t1] and a [Get] at [t2] within the lifetime, the entry of a
    store made by [NewCacheStore] expires one lifetime after [t2], and the
    entry of a store made by [NewTransientStore] one lifetime after [t1]. *)
Theorem MemStore_constructors d t1 t2 k v ref mem :
  t2 ≤ t1 + d →
  let after (s0 : Store) :=
    values (MemStore.Get t2 k ref mem (MemStore.Add t1 k v s0).2).2 !! k in
  after (MemStore.NewCacheStore d) = Some (MemData.mk (t2 + d) d v) ∧
  after (MemStore.NewTransientStore d) = Some (MemData.mk (t1 + d) d v).
Proof.
  intros Hwin after.
  assert (Hgen : ∀ s0, values s0 = ∅ → lifetime s0 = d →
    after s0 = Some (touch t2 s0 (MemData.NewMemData t1 d v))).
  { intros s0 Hv Hlt. unfold after.
    destruct (MemStore_Add_spec t1 k v s0) as (_ & Hvals & Hlt1 & Htr1).
    assert (Hfree : live t1 (values s0) !! k = None).
    { rewrite live_lookup, Hv, lookup_empty. done. }
    rewrite Hfree, Hlt in Hvals.
    set (s1 := (MemStore.Add t1 k v s0).2) in *.
    pose proof (MemStore_Get_spec t2 k ref mem s1) as HG.
    assert (Hfound : live t2 (values s1) !! k =
                       Some (MemData.NewMemData t1 d v)).
    { rewrite live_lookup, Hvals, lookup_insert_eq.
      replace (MemData.IsExpired t2 _) with false; [done|].
      symmetry. apply IsExpired_false. simpl. unfold TimeAdd. lia. }
    rewrite Hfound in HG. destruct HG as [_ ->].
    rewrite lookup_insert_eq. unfold touch. rewrite Htr1, Hlt1. done. }
  split; rewrite Hgen by done; done.
Qed.

Lemma MemStore_constructors_witness :
  1100 ≤ 500 + 1000 ∧
  values (MemStore.Get 1100 "v1" None ∅
            (MemStore.Add 500 "v1" (Some (VInt 45))
               (MemStore.NewCacheStore 1000)).2).2 !! "v1" =
    Some (MemData.mk 2100 1000 (Some (VInt 45))) ∧
  values (MemStore.Get 1100 "v1" None ∅
            (MemStore.Add 500 "v1" (Some (VInt 45))
               (MemStore.NewTransientStore 1000)).2).2 !! "v1" =
    Some (MemData.mk 1500 1000 (Some (VInt 45))).
Proof.
  assert (Hwin : 1100 ≤ 500 + 1000) by lia.
  split; [exact Hwin|].
  exact (MemStore_constructors 1000 500 1100 "v1" (Some (VInt 45)) None ∅
           Hwin).
Defined.

(** X26. [SetLifetime] of [MemStore] changes the default lifetime and
    nothing else, no entry in particular; the new default is the lifetime of
    the entries added afterwards and the lifetime a later [Get] gives to the
    entry it renews. *)
Theorem MemStore_SetLifetime dur s :
  let s' := (MemStore.SetLifetime dur s).2 in
  values s' = values s ∧ lifetime s' = dur ∧
  isTransient s' = isTransient s ∧
  (∀ t k v, values s !! k = None →
     values (MemStore.Add t k v s').2 !! k =
       Some (MemData.mk (t + dur) dur v)) ∧
  (∀ t k e ref mem, values s !! k = Some e →
     MemData.IsExpired t e = false → isTransient s = false →
     values (MemStore.Get t k ref mem s').2 !! k = Some (renewed t dur e)).
Proof.
  intros s'. repeat (split; [done|]). split.
  - intros t k v Hk.
    destruct (MemStore_Add_spec t k v s') as (_ & -> & _).
    assert (Hfree : live t (values s') !! k = None).
    { rewrite live_lookup. simpl. rewrite Hk. done. }
    rewrite Hfree, lookup_insert_eq. done.
  - intros t k e ref mem Hk Hlive Htr.
    pose proof (MemStore_Get_spec t k ref mem s') as HG.
    assert (Hfound : live t (values s') !! k = Some e).
    { rewrite live_lookup. simpl. rewrite Hk, Hlive. done. }
    rewrite Hfound in HG. destruct HG as [_ ->].
    rewrite lookup_insert_eq. unfold touch, renewed. simpl.
    rewrite Htr. done.
Qed.

(** * Entries and documents *)

(** X27. The methods of an entry: [Hit] gives an entry that is expired at
    the instant of the call exactly when its lifetime is negative;
    [SetLifetime] and [SetValue] change neither the [expireAt] of the entry
    nor whether it is expired; [Delete] clears the value and keeps the
    expiry; an expired entry stays expired at every later instant. *)
Theorem MemData_methods now later d v (i : MemData.t) :
  (MemData.IsExpired now (MemData.Hit now i) = true ↔
   MemData.lifetime i < 0) ∧
  MemData.IsExpired now (MemData.SetLifetime d i) = MemData.IsExpired now i ∧
  MemData.IsExpired now (MemData.SetValue v i) = MemData.IsExpired now i ∧
  MemData.IsExpired now (MemData.Delete i) = MemData.IsExpired now i ∧
  MemData.Value (MemData.Delete i) = None ∧
  MemData.Value (MemData.SetValue v i) = v ∧
  MemData.Value (MemData.Hit now (MemData.SetLifetime d i)) =
    MemData.Value i ∧
  (now ≤ later → MemData.IsExpired now i = true →
   MemData.IsExpired later i = true).
Proof.
  split.
  { rewrite IsExpired_true. simpl. unfold TimeAdd. lia. }
  repeat (split; [done|]).
  rewrite !IsExpired_true. lia.
Qed.

(** X28. A document of the MongoDB-backed store created at [t] is expired
    under a lifetime at exactly the instants at which an entry of the
    in-memory store created at [t] with that lifetime is expired: strictly
    after [t] plus the lifetime. *)
Theorem mongoData_expiry_agrees now t lt key payload v :
  let doc := mongoData.mk t key payload in
  mongoData.IsExpired now lt doc =
    MemData.IsExpired now (MemData.NewMemData t lt v) ∧
  (mongoData.IsExpired now lt doc = true ↔ t + lt < now).
Proof.
  intros doc. split; [done|].
  unfold mongoData.IsExpired. rewrite After_spec. done.
Qed.

(** X29. With a default lifetime that is zero or negative, an entry is
    expired as soon as time has passed: [Add] of a new key succeeds, and a
    [Get] at any later instant fails with [InvalidKeyError] and copies
    nothing, the sweep never being skipped. *)
Theorem nonpositive_lifetime t1 t2 k v ref mem s :
  lifetime s ≤ 0 →
  lastgc s ≤ t1 →
  t1 < t2 →
  values s !! k = None →
  (Add t1 k v s).1 = None ∧
  (Get t2 k ref mem (Add t1 k v s).2).1 =
    (Return (Some (InvalidKeyError k)), mem).
Proof.
  intros Hlt Hgc Hlater Hk.
  assert (Hq : lifetime s `quot` 5 ≤ 0).
  { change 0 with (0 `quot` 5). apply Z.quot_le_mono; lia. }
  assert (Hrun1 : skipped t1 s = false).
  { unfold skipped, After, TimeAdd. apply Z.ltb_ge. lia. }
  destruct (Add_spec t1 k v s) as (Hret & Hvals & Hlt1 & _).
  pose proof (Add_lastgc t1 k v s) as Hgc1. rewrite Hrun1 in Hgc1.
  rewrite (swept_lookup_None t1 s k Hk) in Hret, Hvals.
  split; [exact Hret|].
  set (s1 := (Add t1 k v s).2) in *.
  assert (Hrun2 : skipped t2 s1 = false).
  { unfold skipped, After, TimeAdd. rewrite Hlt1, Hgc1. apply Z.ltb_ge. lia. }
  pose proof (Get_spec t2 k ref mem s1) as HG.
  rewrite (swept_lookup_expired t2 s1 k
             (MemData.NewMemData t1 (lifetime s) v)) in HG.
  - apply HG.
  - exact Hrun2.
  - rewrite Hvals. apply lookup_insert_eq.
  - apply IsExpired_true. simpl. unfold TimeAdd. lia.
Qed.

Lemma nonpositive_lifetime_witness :
  let s := New 0 0 false in
  lifetime s ≤ 0 ∧ lastgc s ≤ 5 ∧ 5 < 6 ∧ values s !! "v1" = None ∧
  (Add 5 "v1" None s).1 = None ∧
  (Get 6 "v1" (Some (VPtr TEmptyInterface (Some 1))) ∅
     (Add 5 "v1" None s).2).1 = (Return (Some (InvalidKeyError "v1")), ∅).
Proof.
  intros s.
  assert (H1 : lifetime s ≤ 0) by (simpl; lia).
  assert (H2 : lastgc s ≤ 5) by (simpl; lia).
  assert (H3 : 5 < 6) by lia.
  assert (H4 : values s !! "v1" = None) by (vm_compute; reflexivity).
  split; [exact H1|]. split; [exact H2|]. split; [exact H3|].
  split; [exact H4|].
  exact (nonpositive_lifetime 5 6 "v1" None
           (Some (VPtr TEmptyInterface (Some 1))) ∅ s H1 H2 H3 H4).
Defined.
